(** * Stereo processing: a shallow embedding of
      [machine_vision_acquisition_python/process/stereo/shared.py]

    The development follows the Python module function by function.

    - Numbers.  NumPy and Python floating values are modelled by [scalar]:
      the three IEEE special values the source tests for ([np.inf], [-np.inf]
      and NaN) and exact rationals for the finite values.  Special values
      follow the IEEE rules (NaN is unordered and absorbing, [inf - inf] is
      NaN, [x / 0] is an infinity).  The four operations are exact on finite
      values: the rounding and the overflow of floating-point arithmetic and
      the sign of zero are not modelled.  The theorems therefore state what
      rounding keeps (which operations are applied and in which order,
      special values, signs, orders, bounds), and no digit of a rounded
      result.  The cast [astype(np.float32)] is no arithmetic of the module:
      it is a field of [Libs].
    - Arrays.  A two-dimensional array (a disparity map) is its list of rows;
      an n-dimensional array whose shape matters ([reshape], [squeeze],
      [np.array]) is an [ndarray]: a shape and the elements in row-major
      order.  3-vectors and 3x3 matrices of the calibration have types of
      their own.
    - Exceptions.  A function that may raise returns [result A = exn + A].
    - OpenCV and the numerical routines of NumPy ([cv2.Rodrigues],
      [cv2.stereoRectify], [np.linalg.inv], the square root of
      [np.linalg.norm], the cast to [np.float32], the integer cast of a value
      that does not fit) are not part of the module: they are the fields of
      [Libs], and every theorem holds for every interpretation of them.  The
      two rectifications may raise [cv2.error] (OpenCV does for a rig without
      a baseline), and the module lets that error through. *)

From Stdlib Require Import ZArith QArith Qround Qreduction Qabs.
From Stdlib Require Import String DecimalString Bool Arith Lia Lqa List.
Import ListNotations.

Local Open Scope Z_scope.

(** ** Scalars *)

Inductive scalar : Type :=
| NaN
| PInf
| NInf
| Fin (q : Q).

(** Finite results are kept in lowest terms, so that equal numbers are equal
    terms. *)
Definition fin (q : Q) : scalar := Fin (Qred q).

Definition of_Z (z : Z) : scalar := Fin (inject_Z z).

Definition zero : scalar := of_Z 0.
Definition one : scalar := of_Z 1.

Definition Qsign (q : Q) : comparison := (Qnum q ?= 0)%Z.

Definition is_nan (a : scalar) : bool :=
  match a with NaN => true | _ => false end.

Definition is_finite (a : scalar) : bool :=
  match a with Fin _ => true | _ => false end.

Definition sneg (a : scalar) : scalar :=
  match a with
  | NaN => NaN
  | PInf => NInf
  | NInf => PInf
  | Fin q => fin (- q)
  end.

Definition sadd (a b : scalar) : scalar :=
  match a, b with
  | NaN, _ | _, NaN => NaN
  | PInf, NInf | NInf, PInf => NaN
  | PInf, _ | _, PInf => PInf
  | NInf, _ | _, NInf => NInf
  | Fin x, Fin y => fin (x + y)
  end.

Definition ssub (a b : scalar) : scalar :=
  match a, b with
  | NaN, _ | _, NaN => NaN
  | PInf, PInf | NInf, NInf => NaN
  | PInf, _ | _, NInf => PInf
  | NInf, _ | _, PInf => NInf
  | Fin x, Fin y => fin (x - y)
  end.

(** An infinity times a finite value: the sign of the product, NaN at zero. *)
Definition inf_times (positive : bool) (q : Q) : scalar :=
  match Qsign q with
  | Eq => NaN
  | Gt => if positive then PInf else NInf
  | Lt => if positive then NInf else PInf
  end.

Definition smul (a b : scalar) : scalar :=
  match a, b with
  | NaN, _ | _, NaN => NaN
  | PInf, PInf | NInf, NInf => PInf
  | PInf, NInf | NInf, PInf => NInf
  | PInf, Fin y => inf_times true y
  | NInf, Fin y => inf_times false y
  | Fin x, PInf => inf_times true x
  | Fin x, NInf => inf_times false x
  | Fin x, Fin y => fin (x * y)
  end.

(** NumPy's true division: dividing by zero yields an infinity of the sign
    of the numerator (NaN for [0 / 0]) and raises nothing. *)
Definition sdiv (a b : scalar) : scalar :=
  match a, b with
  | NaN, _ | _, NaN => NaN
  | (PInf | NInf), (PInf | NInf) => NaN
  | PInf, Fin y => match Qsign y with Lt => NInf | _ => PInf end
  | NInf, Fin y => match Qsign y with Lt => PInf | _ => NInf end
  | Fin _, (PInf | NInf) => zero
  | Fin x, Fin y =>
      match Qsign y with
      | Eq => match Qsign x with Eq => NaN | Gt => PInf | Lt => NInf end
      | _ => fin (x / y)
      end
  end.

(** The comparisons [==], [!=], [<=] and [<]: every comparison with NaN is
    false, except [!=], which is true. *)
Definition seqb (a b : scalar) : bool :=
  match a, b with
  | PInf, PInf | NInf, NInf => true
  | Fin x, Fin y => Qeq_bool x y
  | _, _ => false
  end.

Definition sneb (a b : scalar) : bool := negb (seqb a b).

Definition sleb (a b : scalar) : bool :=
  match a, b with
  | NaN, _ | _, NaN => false
  | NInf, _ | _, PInf => true
  | PInf, _ | _, NInf => false
  | Fin x, Fin y => Qle_bool x y
  end.

Definition sltb (a b : scalar) : bool :=
  match a, b with
  | NaN, _ | _, NaN => false
  | PInf, _ | _, NInf => false
  | NInf, _ | _, PInf => true
  | Fin x, Fin y => negb (Qle_bool y x)
  end.

Declare Scope scalar_scope.
Delimit Scope scalar_scope with sc.
Bind Scope scalar_scope with scalar.
Infix "+" := sadd : scalar_scope.
Infix "-" := ssub : scalar_scope.
Infix "*" := smul : scalar_scope.
Infix "/" := sdiv : scalar_scope.
Infix "<=?" := sleb : scalar_scope.
Infix "<?" := sltb : scalar_scope.
Infix "==?" := seqb (at level 70) : scalar_scope.
Infix "!=?" := sneb (at level 70) : scalar_scope.

(** ** Exceptions *)

(** The two exception classes the module raises, and the one it lets
    through: [cv2.error], which an OpenCV routine raises.  NumPy's own
    failures (an empty reduction, an impossible [reshape], a ragged
    [np.array]) are [ValueError]s too. *)
Inductive exn : Type :=
| ValueError (msg : string)
| NotImplementedError (msg : string)
| cv2_error (msg : string).

Definition result (A : Type) : Type := (exn + A)%type.

Definition raise {A : Type} (e : exn) : result A := inl e.
Definition ret {A : Type} (a : A) : result A := inr a.

Definition bind {A B : Type} (m : result A) (k : A -> result B) : result B :=
  match m with
  | inl e => inl e
  | inr a => k a
  end.

Notation "x <- m ;; k" := (bind m (fun x => k))
  (at level 61, m at next level, right associativity).

(** ** Arrays *)

(** A two-dimensional array, row by row. *)
Definition matrix : Type := list (list scalar).

Definition map2d {A B : Type} (f : A -> B) (a : list (list A)) : list (list B) :=
  map (map f) a.

Definition zip2d {A B C : Type} (f : A -> B -> C)
    (a : list (list A)) (b : list (list B)) : list (list C) :=
  map (fun rows => map (fun p => f (fst p) (snd p)) (combine (fst rows) (snd rows)))
      (combine a b).

(** [a[mask]]: the elements of [a] at which [mask] holds, in row-major order. *)
Definition mask_select {A : Type} (mask : list (list bool)) (a : list (list A)) : list A :=
  concat (map (@concat A) (zip2d (fun (keep : bool) v => if keep then [v] else []) mask a)).

(** [a[mask] = value]. *)
Definition mask_set {A : Type} (mask : list (list bool)) (value : A)
    (a : list (list A)) : list (list A) :=
  zip2d (fun (hit : bool) v => if hit then value else v) mask a.

(** [np.maximum] and [np.minimum] propagate NaN. *)
Definition np_maximum (a b : scalar) : scalar :=
  if is_nan a then a else if is_nan b then b else if (a <=? b)%sc then b else a.

Definition np_minimum (a b : scalar) : scalar :=
  if is_nan a then a else if is_nan b then b else if (b <=? a)%sc then b else a.

Definition zero_size_max : string :=
  "zero-size array to reduction operation maximum which has no identity".
Definition zero_size_min : string :=
  "zero-size array to reduction operation minimum which has no identity".

(** [a.max()] and [a.min()] over the elements of an array: an empty array
    has no maximum, and NumPy raises. *)
Definition array_max (l : list scalar) : result scalar :=
  match l with
  | [] => raise (ValueError zero_size_max)
  | x :: rest => ret (fold_left np_maximum rest x)
  end.

Definition array_min (l : list scalar) : result scalar :=
  match l with
  | [] => raise (ValueError zero_size_min)
  | x :: rest => ret (fold_left np_minimum rest x)
  end.

(** Python's slice bounds for [a[start:stop]] on a sequence of length [len]:
    a negative index counts from the end, and both ends are clipped. *)
Definition slice_bound (len : nat) (i : Z) : Z :=
  let n := Z.of_nat len in
  if i <? 0 then Z.max (i + n) 0 else Z.min i n.

Definition py_slice (len : nat) (start stop : Z) : nat * nat :=
  let lo := slice_bound len start in
  let hi := slice_bound len stop in
  (Z.to_nat lo, Z.to_nat (Z.max lo hi)).

Definition slice_get {A : Type} (l : list A) (s : nat * nat) : list A :=
  firstn (snd s - fst s) (skipn (fst s) l).

Definition slice_set {A : Type} (l : list A) (s : nat * nat) (new : list A) : list A :=
  firstn (fst s) l ++ new ++ skipn (snd s) l.

(** [a[r0:r1, c0:c1]] and [a[r0:r1, c0:c1] = block] on a two-dimensional
    array.  All rows of an array have the same length, so the column bounds
    are the same in every row. *)
Definition getitem2 {A : Type} (a : list (list A)) (r0 r1 c0 c1 : Z) : list (list A) :=
  map (fun row => slice_get row (py_slice (length row) c0 c1))
      (slice_get a (py_slice (length a) r0 r1)).

Definition setitem2 {A : Type} (a : list (list A)) (r0 r1 c0 c1 : Z)
    (block : list (list A)) : list (list A) :=
  let rs := py_slice (length a) r0 r1 in
  slice_set a rs
    (map (fun p => slice_set (fst p) (py_slice (length (fst p)) c0 c1) (snd p))
         (combine (slice_get a rs) block)).

(** [np.zeros(a.shape, a.dtype)]. *)
Definition zeros_like (a : matrix) : matrix := map2d (fun _ => zero) a.

(** The pixel at row [r], column [c]. *)
Definition pixel {A : Type} (a : list (list A)) (r c : nat) : option A :=
  match nth_error a r with
  | Some row => nth_error row c
  | None => None
  end.

(** An n-dimensional array: its shape and its elements in row-major order. *)
Record ndarray : Type := mk_ndarray { shape : list nat; data : list scalar }.

(** A Python number or a (nested) list or tuple of them, as [np.array]
    receives it. *)
#[warnings="-register-all"]
Inductive pyseq : Type :=
| Num (x : scalar)
| Seq (items : list pyseq).

Fixpoint stack_data (s : list nat) (parts : list (option ndarray)) : option (list scalar) :=
  match parts with
  | [] => Some []
  | Some a :: rest =>
      if list_eq_dec Nat.eq_dec s (shape a)
      then option_map (app (data a)) (stack_data s rest)
      else None
  | None :: _ => None
  end.

(** The array of a sequence of arrays: they must all have one shape. *)
Definition stack (parts : list (option ndarray)) : option ndarray :=
  match parts with
  | [] => Some (mk_ndarray [0%nat] [])
  | Some a :: _ =>
      option_map (mk_ndarray (length parts :: shape a)) (stack_data (shape a) parts)
  | None :: _ => None
  end.

(** [np.array(p)]: [None] when the nesting is ragged. *)
Fixpoint np_array (p : pyseq) : option ndarray :=
  match p with
  | Num x => Some (mk_ndarray [] [x])
  | Seq items => stack (map np_array items)
  end.

(** The start of NumPy's message for a ragged nesting (it goes on with the
    shape it found). *)
Definition inhomogeneous : string :=
  "setting an array element with a sequence. The requested array has an inhomogeneous shape".

(** [str(n)]. *)
Definition str_nat (n : nat) : string := NilZero.string_of_uint (Nat.to_uint n).

Definition cannot_reshape (size : nat) : string :=
  String.append "cannot reshape array of size "
    (String.append (str_nat size) " into shape (1,3)").

(** [a.reshape(-1, 1, 3)]: the number of elements must be a multiple of 3. *)
Definition reshape_m1_1_3 (a : ndarray) : result ndarray :=
  let n := length (data a) in
  if (n mod 3 =? 0)%nat
  then ret (mk_ndarray [(n / 3)%nat; 1%nat; 3%nat] (data a))
  else raise (ValueError (cannot_reshape n)).

(** [np.squeeze(a, axis=1)] on an array of shape [(n, 1, k)], the only
    shape [reshape(-1, 1, 3)] returns. *)
Definition squeeze_axis1 (a : ndarray) : ndarray :=
  match shape a with
  | n :: 1%nat :: rest => mk_ndarray (n :: rest) (data a)
  | _ => a
  end.

(** The rows of an array of shape [(n, 3)], as iterating over it yields them. *)
Fixpoint rows3 (l : list scalar) : list (list scalar) :=
  match l with
  | u :: v :: d :: rest => [u; v; d] :: rows3 rest
  | _ => []
  end.

(** [np.array(rows)] for a list of rows of three numbers each. *)
Definition array_of_rows (rows : list (list scalar)) : ndarray :=
  match rows with
  | [] => mk_ndarray [0%nat] []
  | _ => mk_ndarray [length rows; 3%nat] (concat rows)
  end.

(** [p[i]] on a row. *)
Definition item (p : list scalar) (i : nat) : scalar := nth i p NaN.

(** ** 3-vectors and 3x3 matrices *)

Record vec3 : Type := V3 { v0 : scalar; v1 : scalar; v2 : scalar }.
Record mat33 : Type := M33 { row0 : vec3; row1 : vec3; row2 : vec3 }.

Definition dot (a b : vec3) : scalar :=
  (v0 a * v0 b + v1 a * v1 b + v2 a * v2 b)%sc.

Definition col0 (m : mat33) : vec3 := V3 (v0 (row0 m)) (v0 (row1 m)) (v0 (row2 m)).
Definition col1 (m : mat33) : vec3 := V3 (v1 (row0 m)) (v1 (row1 m)) (v1 (row2 m)).
Definition col2 (m : mat33) : vec3 := V3 (v2 (row0 m)) (v2 (row1 m)) (v2 (row2 m)).

(** [m.T]. *)
Definition transpose (m : mat33) : mat33 := M33 (col0 m) (col1 m) (col2 m).

(** [np.matmul(a, b)] for two matrices. *)
Definition matmul (a b : mat33) : mat33 :=
  let row r := V3 (dot r (col0 b)) (dot r (col1 b)) (dot r (col2 b)) in
  M33 (row (row0 a)) (row (row1 a)) (row (row2 a)).

(** [np.matmul(a, t.T)] for a matrix and a translation vector; the transpose
    turns the stored row into the column the product needs. *)
Definition matvec (a : mat33) (t : vec3) : vec3 :=
  V3 (dot (row0 a) t) (dot (row1 a) t) (dot (row2 a) t).

Definition vsub (a b : vec3) : vec3 :=
  V3 (v0 a - v0 b)%sc (v1 a - v1 b)%sc (v2 a - v2 b)%sc.

(** ** Calibration records *)

(** Modelled from the spec: the enumeration [CameraModel] is declared in
    [calibration/shared.py], which is not part of this module.  The module
    names two members, [CameraModel.OpenCV] (the pinhole model) and
    [CameraModel.OpenCVFisheye]; any further member of the enumeration is
    [OtherModel] with its name. *)
Inductive CameraModel : Type :=
| OpenCV
| OpenCVFisheye
| OtherModel (name : string).

Definition CameraModel_eqb (a b : CameraModel) : bool :=
  match a, b with
  | OpenCV, OpenCV | OpenCVFisheye, OpenCVFisheye => true
  | OtherModel x, OtherModel y => String.eqb x y
  | _, _ => false
  end.

(** [str(m)] for a member of the enumeration. *)
Definition CameraModel_str (m : CameraModel) : string :=
  String.append "CameraModel."
    match m with
    | OpenCV => "OpenCV"
    | OpenCVFisheye => "OpenCVFisheye"
    | OtherModel name => name
    end.

(** Modelled from the spec: the class [Calibration] is declared in
    [calibration/shared.py]; these are the fields the module reads. *)
Record Calibration : Type := mk_Calibration {
  cameraMatrix : mat33;
  distCoeffs : list scalar;
  rvec : vec3;
  tvec : vec3;
  image_width : Z;
  image_height : Z;
  camera_model : CameraModel;
}.

(** The entries of the intrinsic matrix the module reads:
    [cameraMatrix[0, 0]], [[1, 1]], [[0, 2]] and [[1, 2]]. *)
Definition fx (c : Calibration) : scalar := v0 (row0 (cameraMatrix c)).
Definition fy (c : Calibration) : scalar := v1 (row1 (cameraMatrix c)).
Definition cx (c : Calibration) : scalar := v2 (row0 (cameraMatrix c)).
Definition cy (c : Calibration) : scalar := v2 (row1 (cameraMatrix c)).

(** Modelled from the spec: the property [Calibration.focallength_px] is
    declared in [calibration/shared.py]; the data model describes it as the
    derived scalar fx. *)
Definition focallength_px (c : Calibration) : scalar := fx c.

(** ** OpenCV and NumPy routines *)

(** What [cv2.stereoRectify] returns: [(R1, R2, P1, P2, Q, validPixROI1,
    validPixROI2)], each region a rectangle [(x, y, w, h)]. *)
Record rectification : Type := mk_rectification {
  rect_R1 : mat33;
  rect_R2 : mat33;
  rect_P1 : matrix;
  rect_P2 : matrix;
  rect_Q : matrix;
  rect_roi1 : Z * Z * Z * Z;
  rect_roi2 : Z * Z * Z * Z;
}.

(** What [cv2.fisheye.stereoRectify] returns: [(R1, R2, P1, P2, Q)]. *)
Record fisheye_rectification : Type := mk_fisheye_rectification {
  frect_R1 : mat33;
  frect_R2 : mat33;
  frect_P1 : matrix;
  frect_P2 : matrix;
  frect_Q : matrix;
}.

Record Libs : Type := mk_Libs {
  (** [cv2.Rodrigues] on a rotation vector: the rotation matrix and the
      jacobian. *)
  Rodrigues : vec3 -> mat33 * matrix;
  (** [cv2.Rodrigues] on a rotation matrix: the rotation vector and the
      jacobian. *)
  Rodrigues_matrix : mat33 -> vec3 * matrix;
  (** [np.linalg.inv]. *)
  linalg_inv : mat33 -> mat33;
  (** The square root [np.linalg.norm] takes. *)
  sqrt : scalar -> scalar;
  (** [cv2.stereoRectify(K1, D1, K2, D2, imageSize, R, T, flags, alpha)]:
      what it returns, or the message of the [cv2.error] it raises. *)
  stereoRectify :
    mat33 -> list scalar -> mat33 -> list scalar -> Z * Z -> vec3 -> vec3 ->
    Z -> scalar -> string + rectification;
  (** [cv2.fisheye.stereoRectify(K1, D1, K2, D2, imageSize, R, tvec, flags)],
      likewise. *)
  fisheye_stereoRectify :
    mat33 -> list scalar -> mat33 -> list scalar -> Z * Z -> vec3 -> vec3 ->
    Z -> string + fisheye_rectification;
  (** [cv2.initUndistortRectifyMap(K, D, R, P, size, m1type)] and its fisheye
      counterpart: the two remap tables. *)
  initUndistortRectifyMap :
    mat33 -> list scalar -> mat33 -> matrix -> Z * Z -> Z -> ndarray * ndarray;
  fisheye_initUndistortRectifyMap :
    mat33 -> list scalar -> mat33 -> matrix -> Z * Z -> Z -> ndarray * ndarray;
  (** [cv2.remap(src, map1, map2, interpolation)]. *)
  cv2_remap : matrix -> ndarray -> ndarray -> Z -> matrix;
  (** [np.float32(v)]: the cast of one element by [astype(np.float32)]. *)
  float32 : scalar -> scalar;
  (** [astype] to an unsigned integer type of the given width, for a value
      whose truncation does not fit (or is not a number): the result depends
      on the platform. *)
  cast_out_of_range : Z -> scalar -> Z;
}.

(** A call of an OpenCV routine that may raise [cv2.error]. *)
Definition cv2_call {A : Type} (r : string + A) : result A :=
  match r with
  | inl msg => raise (cv2_error msg)
  | inr a => ret a
  end.

(** OpenCV's constants. *)
Definition CALIB_ZERO_DISPARITY : Z := 1024.
Definition CV_16SC2 : Z := 11.
Definition INTER_LINEAR : Z := 1.

(** [np.linalg.norm] of a vector: the square root of the sum of squares. *)
Definition linalg_norm (L : Libs) (t : vec3) : scalar :=
  sqrt L (v0 t * v0 t + v1 t * v1 t + v2 t * v2 t)%sc.

(** [np.iinfo(np.uint16).max] and [np.iinfo(np.uint8).max]. *)
Definition uint16_max : Z := 65535.
Definition uint8_max : Z := 255.

(** Truncation towards zero. *)
Definition Qtrunc (q : Q) : Z := Z.quot (Qnum q) (Z.pos (Qden q)).

(** [v.astype(np.uintN)] for one element: a finite value is truncated
    towards zero; NumPy leaves the result open when that does not fit. *)
Definition astype_uint (L : Libs) (bits : Z) (v : scalar) : Z :=
  match v with
  | Fin q =>
      let t := Qtrunc q in
      if (0 <=? t) && (t <? 2 ^ bits) then t else cast_out_of_range L bits v
  | _ => cast_out_of_range L bits v
  end.

(** [a.astype(np.float32)]: every element is cast, the shape is kept. *)
Definition astype_float32 (L : Libs) (a : ndarray) : ndarray :=
  mk_ndarray (shape a) (map (float32 L) (data a)).

(** ** class StereoParams *)

(** The attributes keep their names inside a module of the class's name:
    [StereoParams.Q] is the attribute, [Q] the rationals. *)
Module StereoParams.

Record t : Type := mk {
  R1 : mat33;
  R2 : mat33;
  P1 : matrix;
  P2 : matrix;
  Q : matrix;
  validROI1 : option (list Z);
  validROI2 : option (list Z);
}.

End StereoParams.

Abbreviation StereoParams := StereoParams.t.

Definition roi_tuple (r : Z * Z * Z * Z) : list Z :=
  let '(x, y, w, h) := r in [x; y; w; h].

(** [StereoParams( *cv2.stereoRectify(...))]: seven positional arguments. *)
Definition StereoParams_of_rectification (r : rectification) : StereoParams :=
  StereoParams.mk (rect_R1 r) (rect_R2 r) (rect_P1 r) (rect_P2 r) (rect_Q r)
    (Some (roi_tuple (rect_roi1 r))) (Some (roi_tuple (rect_roi2 r))).

(** [StereoParams( *cv2.fisheye.stereoRectify(...))]: five positional
    arguments, so both regions keep their default, [None]. *)
Definition StereoParams_of_fisheye (r : fisheye_rectification) : StereoParams :=
  StereoParams.mk (frect_R1 r) (frect_R2 r) (frect_P1 r) (frect_P2 r) (frect_Q r)
    None None.

(** ** class StereoProcessor *)

(** The attributes of an instance once [__init__] has returned. *)
Record StereoProcessor : Type := mk_StereoProcessor {
  calibration_left : Calibration;
  calibration_right : Calibration;
  image_size : Z * Z;
  (** [self.camera_model] *)
  self_camera_model : CameraModel;
  r1 : mat33 * matrix;
  r2 : mat33 * matrix;
  R : mat33;
  T : vec3;
  params : StereoParams;
  map_left_1 : ndarray;
  map_left_2 : ndarray;
  map_right_1 : ndarray;
  map_right_2 : ndarray;
}.

Definition mismatch_msg : string :=
  "Camera calibration image sizes or models don't match".

Definition unsupported_msg (m : CameraModel) : string :=
  String.append "Camera model "
    (String.append (CameraModel_str m) " not supported (yet!)").

Definition roi_msg : string := "Invalid".

Definition points_msg : string := "Points input array must be Nx3 array".

(** What [points_px_to_3d_world_space] accepts: an array, a list or a
    tuple. *)
Inductive points_px : Type :=
| PxArray (a : ndarray)
| PxList (items : list pyseq)
| PxTuple (items : list pyseq).

(** [_marshal_point_to_array]: a list or a tuple becomes an array, an array
    is returned as it is. *)
Definition _marshal_point_to_array (L : Libs) (point : points_px) : result ndarray :=
  match point with
  | PxList items | PxTuple items =>
      match np_array (Seq items) with
      | Some a => ret (astype_float32 L a)
      | None => raise (ValueError inhomogeneous)
      end
  | PxArray a => ret a
  end.

Section StereoProcessor.

Variable L : Libs.

(** The attributes [init_opencv_model_params] sets: [params] and the four
    remap tables.  When [cv2.stereoRectify] raises, nothing is set and the
    error leaves the method. *)
Definition init_opencv_model_params (left right : Calibration) (size : Z * Z)
    (R : mat33) (T : vec3)
    : result (StereoParams * (ndarray * ndarray) * (ndarray * ndarray)) :=
  rectified <-
    cv2_call (stereoRectify L
                (cameraMatrix left) (distCoeffs left)
                (cameraMatrix right) (distCoeffs right)
                size (fst (Rodrigues_matrix L R)) T
                CALIB_ZERO_DISPARITY (of_Z (-1))) ;;
  let params := StereoParams_of_rectification rectified in
  ret (params,
       initUndistortRectifyMap L (cameraMatrix left) (distCoeffs left)
         (StereoParams.R1 params) (StereoParams.P1 params) size CV_16SC2,
       initUndistortRectifyMap L (cameraMatrix right) (distCoeffs right)
         (StereoParams.R2 params) (StereoParams.P2 params) size CV_16SC2).

Definition init_opencvfisheye_model_params (left right : Calibration) (size : Z * Z)
    (R : mat33) (T : vec3)
    : result (StereoParams * (ndarray * ndarray) * (ndarray * ndarray)) :=
  rectified <-
    cv2_call (fisheye_stereoRectify L
                (cameraMatrix left) (distCoeffs left)
                (cameraMatrix right) (distCoeffs right)
                size (fst (Rodrigues_matrix L R)) T
                CALIB_ZERO_DISPARITY) ;;
  let params := StereoParams_of_fisheye rectified in
  ret (params,
       fisheye_initUndistortRectifyMap L (cameraMatrix left) (distCoeffs left)
         (StereoParams.R1 params) (StereoParams.P1 params) size CV_16SC2,
       fisheye_initUndistortRectifyMap L (cameraMatrix right) (distCoeffs right)
         (StereoParams.R2 params) (StereoParams.P2 params) size CV_16SC2).

(** [init_stereo_params], from the attributes [__init__] has set so far. *)
Definition init_stereo_params (left right : Calibration) (size : Z * Z)
    (model : CameraModel) : result StereoProcessor :=
  let r1 := Rodrigues L (rvec left) in
  let r2 := Rodrigues L (rvec right) in
  let R := matmul (linalg_inv L (fst r1)) (fst r2) in
  let T := vsub (matvec (transpose (fst r1)) (tvec right))
                (matvec (transpose (fst r1)) (tvec left)) in
  let finish (p : StereoParams * (ndarray * ndarray) * (ndarray * ndarray)) :=
    let '(params, (l1, l2), (r1', r2')) := p in
    mk_StereoProcessor left right size model r1 r2 R T params l1 l2 r1' r2' in
  match model with
  | OpenCV =>
      p <- init_opencv_model_params left right size R T ;;
      ret (finish p)
  | OpenCVFisheye =>
      p <- init_opencvfisheye_model_params left right size R T ;;
      ret (finish p)
  | _ => raise (NotImplementedError (unsupported_msg model))
  end.

(** The test [__init__] makes on the two calibration records. *)
Definition calibrations_differ (left right : Calibration) : bool :=
  negb (image_width left =? image_width right)
  || negb (image_height left =? image_height right)
  || negb (CameraModel_eqb (camera_model left) (camera_model right)).

Definition __init__ (calibration_left calibration_right : Calibration)
    : result StereoProcessor :=
  if calibrations_differ calibration_left calibration_right
  then raise (ValueError mismatch_msg)
  else
    let image_size := (image_width calibration_left, image_height calibration_left) in
    let camera_model := camera_model calibration_left in
    init_stereo_params calibration_left calibration_right image_size camera_model.

Definition apply_roi_to_disparity (self : StereoProcessor) (disparity : matrix)
    : result matrix :=
  let masked_image := zeros_like disparity in
  match StereoParams.validROI1 (params self) with
  | Some [x; y; w; h] =>
      ret (setitem2 masked_image y (y + h) x (x + w)
             (getitem2 disparity y (y + h) x (x + w)))
  | _ => raise (ValueError roi_msg)
  end.

Definition remap (self : StereoProcessor) (left right : matrix) : matrix * matrix :=
  (cv2_remap L left (map_left_1 self) (map_left_2 self) INTER_LINEAR,
   cv2_remap L right (map_right_1 self) (map_right_2 self) INTER_LINEAR).

Definition calculate_disparity (self : StereoProcessor)
    (left_remapped right_remapped : matrix) : result matrix :=
  raise (NotImplementedError "").

Definition baseline_mm (self : StereoProcessor) : scalar :=
  linalg_norm L (T self).

Definition normalise_disparity_16b (disparity : matrix) : result (list (list Z)) :=
  let invalid :=
    zip2d orb (map2d (fun v => v ==? PInf)%sc disparity)
              (map2d (fun v => v !=? v)%sc disparity) in
  let new_max_value := uint16_max in
  old_max <- array_max (mask_select (map2d negb invalid) disparity) ;;
  let old_max := if (old_max <=? zero)%sc then one else old_max in
  let disp_16b :=
    map2d (astype_uint L 16)
      (map2d (fun v => v / old_max * of_Z new_max_value)%sc disparity) in
  ret disp_16b.

Definition normalise_disparity_8b (disparity : matrix) : result (list (list Z)) :=
  let invalid :=
    zip2d orb (map2d (fun v => v ==? PInf)%sc disparity)
              (map2d (fun v => v !=? v)%sc disparity) in
  let new_max_value := uint8_max in
  old_max <- array_max (mask_select (map2d negb invalid) disparity) ;;
  let old_max := if (old_max <=? zero)%sc then one else old_max in
  let disp_8b :=
    map2d (astype_uint L 8)
      (map2d (fun v => v / old_max * of_Z new_max_value)%sc disparity) in
  ret disp_8b.

Definition shift_disp_down (disparity : matrix) : result matrix :=
  disparity_max <- array_max (concat disparity) ;;
  if (disparity_max <=? zero)%sc then ret disparity
  else
    non_zero_min <-
      array_min (mask_select (map2d (fun v => v !=? zero)%sc disparity) disparity) ;;
    let disparity_false := map2d (fun v => v - (non_zero_min + one))%sc disparity in
    ret (mask_set (map2d (fun v => v <? zero)%sc disparity_false) zero disparity_false).

Definition disparity_to_depth_mm (self : StereoProcessor) (disparity_value : scalar)
    : scalar :=
  let focallength_px := focallength_px (calibration_left self) in
  let doffs := zero in
  let baseline_mm := linalg_norm L (T self) in
  (baseline_mm * focallength_px / (disparity_value + doffs))%sc.

Definition points_px_to_3d_world_space (self : StereoProcessor) (points : points_px)
    : result ndarray :=
  marshalled <- _marshal_point_to_array L points ;;
  reshaped <- reshape_m1_1_3 marshalled ;;
  let points_ndarray := astype_float32 L reshaped in
  let points_ndarray := squeeze_axis1 points_ndarray in
  if negb (nth 1 (shape points_ndarray) 0 =? 3)%nat
  then raise (ValueError points_msg)
  else
    let f_x := fx (calibration_left self) in
    let f_y := fy (calibration_left self) in
    let c_x := cx (calibration_left self) in
    let c_y := cy (calibration_left self) in
    let body (point : list scalar) : list scalar :=
      let z := disparity_to_depth_mm self (item point 2) in
      let x := ((item point 0 - c_x) / f_x * z)%sc in
      let y := ((item point 1 - c_y) / f_y * z)%sc in
      [x; y; z] in
    let result := map body (rows3 (data points_ndarray)) in
    ret (astype_float32 L (array_of_rows result)).

End StereoProcessor.

(** ** The behaviour the specification describes, where it is compared with
       the code *)

(** Shift-down compression as the specification words it: "find the minimum
    strictly-positive value; subtract (min_positive + 1) from every pixel;
    clamp negative results to 0; no-op if the map's maximum is <= 0". *)
Definition shift_down_min_positive (disparity : matrix) : result matrix :=
  disparity_max <- array_max (concat disparity) ;;
  if (disparity_max <=? zero)%sc then ret disparity
  else
    min_positive <- array_min (filter (fun v => zero <? v)%sc (concat disparity)) ;;
    ret (map2d (fun v =>
                  let shifted := (v - (min_positive + one))%sc in
                  if (shifted <? zero)%sc then zero else shifted)
               disparity).

(** The maximum finite value of a map: the maximum once [+inf], [-inf] and
    NaN are masked out. *)
Definition max_finite (disparity : matrix) : result scalar :=
  array_max (filter is_finite (concat disparity)).

(** A pixel is inside the rectangle [(x, y, w, h)]. *)
Definition inside_roi (x y w h : Z) (r c : nat) : bool :=
  (y <=? Z.of_nat r) && (Z.of_nat r <? y + h)
  && (x <=? Z.of_nat c) && (Z.of_nat c <? x + w).

(** ** A concrete rig for the examples

    An interpretation of [Libs] on which the examples below run.
    [Rodrigues] is OpenCV's at the three rotation vectors the examples use,
    the inverse is the exact one, the square root is exact on squares, and
    the cast to [np.float32] is the rounding of IEEE 754 binary32;
    rectification is the trivial one of a rig that is already rectified, and
    fails on a rig without a baseline.  No theorem depends on it: each holds
    for every [Libs]. *)

Definition identity33 : mat33 :=
  M33 (V3 one zero zero) (V3 zero one zero) (V3 zero zero one).

Definition det33 (m : mat33) : scalar :=
  let '(M33 (V3 a b c) (V3 d e f) (V3 g h i)) := m in
  (a * (e * i - f * h) - b * (d * i - f * g) + c * (d * h - e * g))%sc.

Definition inv33 (m : mat33) : mat33 :=
  let '(M33 (V3 a b c) (V3 d e f) (V3 g h i)) := m in
  let k := det33 m in
  M33 (V3 ((e * i - f * h) / k) ((c * h - b * i) / k) ((b * f - c * e) / k))%sc
      (V3 ((f * g - d * i) / k) ((a * i - c * g) / k) ((c * d - a * f) / k))%sc
      (V3 ((d * h - e * g) / k) ((b * g - a * h) / k) ((a * e - b * d) / k))%sc.

Definition sqrt_exact (a : scalar) : scalar :=
  match a with
  | Fin q =>
      match Qsign q with
      | Lt => NaN
      | _ => Fin (Z.sqrt (Qnum q) # Pos.sqrt (Qden q))
      end
  | PInf => PInf
  | _ => NaN
  end.

Definition empty_array : ndarray := mk_ndarray [0%nat] [].

(** The quarter turns about the z axis and about the x axis.  They are what
    [cv2.Rodrigues] returns for a rotation vector of length pi/2 along the
    axis.  No rational number is pi/2: [quarter_angle] is the double nearest
    to it, 1.5707963267948966, and the sample interpretation answers it with
    the quarter turn, from which OpenCV's matrix at this vector differs by
    less than 1e-15 in every entry.  Any other rotation vector of the
    examples is zero, the identity rotation. *)
Definition quarter_angle : scalar := Fin (884279719003555 # 562949953421312).

Definition quarter_turn_z : mat33 :=
  M33 (V3 zero (of_Z (-1)) zero) (V3 one zero zero) (V3 zero zero one).

Definition quarter_turn_x : mat33 :=
  M33 (V3 one zero zero) (V3 zero zero (of_Z (-1))) (V3 zero one zero).

Definition sample_Rodrigues (r : vec3) : mat33 * matrix :=
  if (v0 r ==? zero)%sc && (v1 r ==? zero)%sc && (v2 r ==? quarter_angle)%sc
  then (quarter_turn_z, [])
  else if (v0 r ==? quarter_angle)%sc && (v1 r ==? zero)%sc && (v2 r ==? zero)%sc
  then (quarter_turn_x, [])
  else (identity33, []).

(** The nearest integer, a tie going to the even one. *)
Definition Qround_even (q : Q) : Z :=
  let f := Qfloor q in
  match (q - inject_Z f ?= 1 # 2)%Q with
  | Lt => f
  | Gt => f + 1
  | Eq => if Z.even f then f else f + 1
  end.

(** [floor(log2 |q|)] for a [q] that is not 0. *)
Definition Qlog2 (q : Q) : Z :=
  let e := Z.log2 (Z.abs (Qnum q)) - Z.log2 (Z.pos (Qden q)) in
  if Qle_bool (2 ^ e) (Qabs q) then e else e - 1.

(** Rounding to IEEE 754 binary32: 24 significant bits, the exponent of a
    normal number from -126 to 127, the nearest value with ties to even, and
    an infinity from 2^128 on. *)
Definition round_float32 (v : scalar) : scalar :=
  match v with
  | Fin q =>
      match Qsign q with
      | Eq => zero
      | sign =>
          let e := Z.max (Qlog2 q) (-126) in
          let ulp := (2 ^ (e - 23))%Q in
          let r := (inject_Z (Qround_even (q / ulp)) * ulp)%Q in
          if Qle_bool (2 ^ 128) (Qabs r)
          then match sign with Lt => NInf | _ => PInf end
          else fin r
      end
  | _ => v
  end.

(** A rig whose cameras are at one place has no baseline. *)
Definition no_baseline (T : vec3) : bool :=
  (v0 T ==? zero)%sc && (v1 T ==? zero)%sc && (v2 T ==? zero)%sc.

Definition sample_libs : Libs :=
  {| Rodrigues := sample_Rodrigues;
     Rodrigues_matrix := fun _ => (V3 zero zero zero, []);
     linalg_inv := inv33;
     sqrt := sqrt_exact;
     stereoRectify := fun _ _ _ _ size _ T _ _ =>
       if no_baseline T
       then inl "stereoRectify: the translation is zero"%string
       else inr (mk_rectification identity33 identity33 [] [] []
                   (0, 0, fst size, snd size) (0, 0, fst size, snd size));
     fisheye_stereoRectify := fun _ _ _ _ _ _ _ _ =>
       inr (mk_fisheye_rectification identity33 identity33 [] [] []);
     initUndistortRectifyMap := fun _ _ _ _ _ _ => (empty_array, empty_array);
     fisheye_initUndistortRectifyMap := fun _ _ _ _ _ _ => (empty_array, empty_array);
     cv2_remap := fun src _ _ _ => src;
     float32 := round_float32;
     cast_out_of_range := fun _ _ => 0 |}.

(** A 640x480 camera with focal length 1000 px and principal point
    (320, 240), unrotated, at [tx] mm along the x axis. *)
Definition sample_camera (tx width : Z) (model : CameraModel) : Calibration :=
  {| cameraMatrix :=
       M33 (V3 (of_Z 1000) zero (of_Z 320))
           (V3 zero (of_Z 1000) (of_Z 240))
           (V3 zero zero one);
     distCoeffs := [];
     rvec := V3 zero zero zero;
     tvec := V3 (of_Z tx) zero zero;
     image_width := width;
     image_height := 480;
     camera_model := model |}.

Definition sample_left : Calibration := sample_camera 0 640 OpenCV.
Definition sample_right : Calibration := sample_camera 100 640 OpenCV.

(** The same camera at another pose. *)
Definition with_pose (c : Calibration) (rvec tvec : vec3) : Calibration :=
  {| cameraMatrix := cameraMatrix c;
     distCoeffs := distCoeffs c;
     rvec := rvec;
     tvec := tvec;
     image_width := image_width c;
     image_height := image_height c;
     camera_model := camera_model c |}.

(** Two cameras that are turned against each other: the left one by a
    quarter turn about z, the right one by a quarter turn about x. *)
Definition turned_left : Calibration :=
  with_pose sample_left (V3 zero zero quarter_angle)
    (V3 (of_Z 10) (of_Z 20) (of_Z 30)).

Definition turned_right : Calibration :=
  with_pose sample_left (V3 quarter_angle zero zero)
    (V3 (of_Z 110) (of_Z 20) (of_Z 30)).

(** The instance the two sample cameras construct, with a valid region of
    one's choice. *)
Definition sample_processor (roi : option (list Z)) : StereoProcessor :=
  {| calibration_left := sample_left;
     calibration_right := sample_right;
     image_size := (640, 480);
     self_camera_model := OpenCV;
     r1 := (identity33, []);
     r2 := (identity33, []);
     R := identity33;
     T := V3 (of_Z 100) zero zero;
     params := StereoParams.mk identity33 identity33 [] [] [] roi roi;
     map_left_1 := empty_array;
     map_left_2 := empty_array;
     map_right_1 := empty_array;
     map_right_2 := empty_array |}.

(** ** Auxiliary definitions for the proofs *)

(** The complement of the mask [invalid]: a pixel is kept when it is neither
    [+inf] nor NaN. *)
Definition kept (v : scalar) : bool := negb (orb (v ==? PInf)%sc (v !=? v)%sc).

(** Membership in the interval of a slice. *)
Definition in_slice (s : nat * nat) (i : nat) : bool :=
  (fst s <=? i)%nat && (i <? snd s)%nat.

(** One row of the result: zeros, with the columns of the slice copied from
    the row of the input. *)
Definition masked_row (c0 c1 : Z) (row : list scalar) : list scalar :=
  slice_set (map (fun _ => zero) row) (py_slice (length row) c0 c1)
            (slice_get row (py_slice (length row) c0 c1)).

(** What the loop of [points_px_to_3d_world_space] appends for one row
    [(u, v, d)] of the input. *)
Definition project_point (L : Libs) (self : StereoProcessor) (point : list scalar)
    : list scalar :=
  let z := disparity_to_depth_mm L self (item point 2) in
  [((item point 0 - cx (calibration_left self)) / fx (calibration_left self) * z)%sc;
   ((item point 1 - cy (calibration_left self)) / fy (calibration_left self) * z)%sc;
   z].

(** The array [apply_roi_to_disparity] returns for the region
    [(x, y, w, h)]. *)
Definition masked_image (x y w h : Z) (disparity : matrix) : matrix :=
  setitem2 (zeros_like disparity) y (y + h) x (x + w)
           (getitem2 disparity y (y + h) x (x + w)).

(** Two fisheye cameras, and a pair of them as [__init__] receives it. *)
Definition sample_fisheye_left : Calibration := sample_camera 0 640 OpenCVFisheye.
Definition sample_fisheye_right : Calibration := sample_camera 100 640 OpenCVFisheye.

(** A point [(u, v, d)] as a Python tuple, and as a row of an array. *)
Definition py_tuple3 (p : scalar * scalar * scalar) : pyseq :=
  let '(u, v, d) := p in Seq [Num u; Num v; Num d].

Definition point_row (p : scalar * scalar * scalar) : list scalar :=
  let '(u, v, d) := p in [u; v; d].

(** [t[i]] and [m[i, k]], for indices from 0 to 2. *)
Definition coord (t : vec3) (i : nat) : scalar :=
  match i with
  | 0%nat => v0 t
  | 1%nat => v1 t
  | _ => v2 t
  end.

Definition entry (m : mat33) (i k : nat) : scalar :=
  coord match i with
        | 0%nat => row0 m
        | 1%nat => row1 m
        | _ => row2 m
        end k.

(** Vectors and matrices of finite numbers. *)
Definition finite_vec3 (t : vec3) : bool :=
  is_finite (v0 t) && is_finite (v1 t) && is_finite (v2 t).

Definition finite_mat33 (m : mat33) : bool :=
  finite_vec3 (row0 m) && finite_vec3 (row1 m) && finite_vec3 (row2 m).

(** * Properties *)

Arguments Qred : simpl never.

(** ** Order on scalars *)

Lemma sleb_Fin (x y : Q) : (Fin x <=? Fin y)%sc = true <-> (x <= y)%Q.
Proof. apply Qle_bool_iff. Qed.

Lemma sltb_Fin (x y : Q) : (Fin x <? Fin y)%sc = true <-> (x < y)%Q.
Proof.
  simpl. rewrite negb_true_iff. split; intro H.
  - apply Qnot_le_lt. intro Hle. apply Qle_bool_iff in Hle. congruence.
  - destruct (Qle_bool y x) eqn:E; [|reflexivity].
    apply Qle_bool_iff in E. exfalso. exact (Qlt_not_le _ _ H E).
Qed.

Lemma sleb_Fin_false (x y : Q) : (Fin x <=? Fin y)%sc = false <-> (y < x)%Q.
Proof.
  rewrite <- sltb_Fin. simpl. destruct (Qle_bool x y); simpl; intuition congruence.
Qed.

Lemma sleb_refl (a : scalar) : is_nan a = false -> (a <=? a)%sc = true.
Proof.
  destruct a; simpl; try congruence. intros _. apply Qle_bool_iff, Qle_refl.
Qed.

Lemma sleb_trans (a b c : scalar) :
  (a <=? b)%sc = true -> (b <=? c)%sc = true -> (a <=? c)%sc = true.
Proof.
  destruct a, b, c; simpl; try congruence.
  rewrite !Qle_bool_iff. apply Qle_trans.
Qed.

Lemma sleb_total (a b : scalar) :
  is_nan a = false -> is_nan b = false ->
  (a <=? b)%sc = true \/ (b <=? a)%sc = true.
Proof.
  destruct a, b; simpl; try congruence; auto.
  intros _ _. rewrite !Qle_bool_iff.
  destruct (Qlt_le_dec q q0) as [H|H]; [left; apply Qlt_le_weak; exact H | right; exact H].
Qed.

Lemma sleb_not_nan (a b : scalar) :
  (a <=? b)%sc = true -> is_nan a = false /\ is_nan b = false.
Proof. destruct a, b; simpl; auto; congruence. Qed.

Lemma sneb_self (a : scalar) : (a !=? a)%sc = is_nan a.
Proof.
  destruct a; simpl; try reflexivity.
  unfold sneb. simpl. rewrite (proj2 (Qeq_bool_iff q q) (Qeq_refl q)). reflexivity.
Qed.

Lemma seqb_PInf (a : scalar) : (a ==? PInf)%sc = true <-> a = PInf.
Proof. destruct a; simpl; split; congruence. Qed.

(** ** The reductions [max] and [min] *)

Lemma np_maximum_not_nan (a b : scalar) :
  is_nan a = false -> is_nan b = false ->
  is_nan (np_maximum a b) = false
  /\ (np_maximum a b = a \/ np_maximum a b = b)
  /\ (a <=? np_maximum a b)%sc = true
  /\ (b <=? np_maximum a b)%sc = true.
Proof.
  intros Ha Hb. unfold np_maximum. rewrite Ha, Hb.
  destruct (a <=? b)%sc eqn:E.
  - repeat split; auto. apply sleb_refl; exact Hb.
  - repeat split; auto.
    + apply sleb_refl; exact Ha.
    + destruct (sleb_total a b Ha Hb); congruence.
Qed.

Lemma np_minimum_not_nan (a b : scalar) :
  is_nan a = false -> is_nan b = false ->
  is_nan (np_minimum a b) = false
  /\ (np_minimum a b = a \/ np_minimum a b = b)
  /\ (np_minimum a b <=? a)%sc = true
  /\ (np_minimum a b <=? b)%sc = true.
Proof.
  intros Ha Hb. unfold np_minimum. rewrite Ha, Hb.
  destruct (b <=? a)%sc eqn:E.
  - repeat split; auto. apply sleb_refl; exact Hb.
  - repeat split; auto.
    + apply sleb_refl; exact Ha.
    + destruct (sleb_total a b Ha Hb); congruence.
Qed.

Lemma fold_maximum_spec (l : list scalar) (x : scalar) :
  is_nan x = false -> Forall (fun v => is_nan v = false) l ->
  let m := fold_left np_maximum l x in
  is_nan m = false /\ In m (x :: l) /\ forall v, In v (x :: l) -> (v <=? m)%sc = true.
Proof.
  revert x. induction l as [|y l IH]; intros x Hx Hl; simpl.
  - split; [exact Hx|]. split; [auto|].
    intros v [<-|[]]. apply sleb_refl; exact Hx.
  - inversion Hl as [|? ? Hy Hl']; subst.
    destruct (np_maximum_not_nan x y Hx Hy) as (Hn & Hor & Hxm & Hym).
    destruct (IH _ Hn Hl') as (Hn' & Hin & Hub). simpl in Hin, Hub.
    split; [exact Hn'|]. split.
    + destruct Hin as [Hin|Hin]; [|auto].
      rewrite <- Hin. destruct Hor as [E|E]; rewrite E; auto.
    + intros v [<-|[<-|Hv]].
      * eapply sleb_trans; [exact Hxm | apply Hub; auto].
      * eapply sleb_trans; [exact Hym | apply Hub; auto].
      * apply Hub; auto.
Qed.

Lemma fold_minimum_spec (l : list scalar) (x : scalar) :
  is_nan x = false -> Forall (fun v => is_nan v = false) l ->
  let m := fold_left np_minimum l x in
  is_nan m = false /\ In m (x :: l) /\ forall v, In v (x :: l) -> (m <=? v)%sc = true.
Proof.
  revert x. induction l as [|y l IH]; intros x Hx Hl; simpl.
  - split; [exact Hx|]. split; [auto|].
    intros v [<-|[]]. apply sleb_refl; exact Hx.
  - inversion Hl as [|? ? Hy Hl']; subst.
    destruct (np_minimum_not_nan x y Hx Hy) as (Hn & Hor & Hxm & Hym).
    destruct (IH _ Hn Hl') as (Hn' & Hin & Hub). simpl in Hin, Hub.
    split; [exact Hn'|]. split.
    + destruct Hin as [Hin|Hin]; [|auto].
      rewrite <- Hin. destruct Hor as [E|E]; rewrite E; auto.
    + intros v [<-|[<-|Hv]].
      * eapply sleb_trans; [apply Hub; auto | exact Hxm].
      * eapply sleb_trans; [apply Hub; auto | exact Hym].
      * apply Hub; auto.
Qed.

(** On a non-empty array without NaN, [max] returns an element that bounds
    every element from above. *)
Lemma array_max_spec (l : list scalar) :
  l <> [] -> Forall (fun v => is_nan v = false) l ->
  exists m, array_max l = inr m /\ is_nan m = false /\ In m l
            /\ forall v, In v l -> (v <=? m)%sc = true.
Proof.
  destruct l as [|x l]; [congruence|]. intros _ H.
  inversion H as [|? ? Hx Hl]; subst.
  exists (fold_left np_maximum l x). split; [reflexivity|].
  apply fold_maximum_spec; assumption.
Qed.

Lemma array_min_spec (l : list scalar) :
  l <> [] -> Forall (fun v => is_nan v = false) l ->
  exists m, array_min l = inr m /\ is_nan m = false /\ In m l
            /\ forall v, In v l -> (m <=? v)%sc = true.
Proof.
  destruct l as [|x l]; [congruence|]. intros _ H.
  inversion H as [|? ? Hx Hl]; subst.
  exists (fold_left np_minimum l x). split; [reflexivity|].
  apply fold_minimum_spec; assumption.
Qed.

Lemma array_max_inr (l : list scalar) : l <> [] -> exists m, array_max l = inr m.
Proof. destruct l; [congruence|]. intros _. eexists; reflexivity. Qed.

Lemma array_max_inl (l : list scalar) (e : exn) :
  array_max l = inl e <-> l = [] /\ e = ValueError zero_size_max.
Proof.
  destruct l; simpl; unfold raise, ret; split.
  - intros H; inversion H; auto.
  - intros [_ ->]; reflexivity.
  - discriminate.
  - intros [H _]; discriminate.
Qed.

(** ** Element-wise operations *)

Lemma combine_map_same {A B C : Type} (g : A -> B) (h : A -> C) (l : list A) :
  combine (map g l) (map h l) = map (fun v => (g v, h v)) l.
Proof. induction l as [|x l IH]; simpl; [reflexivity | rewrite IH; reflexivity]. Qed.

Lemma zip2d_map2d {A B C D : Type} (f : B -> C -> D) (g : A -> B) (h : A -> C)
    (a : list (list A)) :
  zip2d f (map2d g a) (map2d h a) = map2d (fun v => f (g v) (h v)) a.
Proof.
  unfold zip2d, map2d. rewrite combine_map_same, map_map.
  apply map_ext. intros row. simpl. rewrite combine_map_same, map_map. reflexivity.
Qed.

Lemma map2d_id {A : Type} (a : list (list A)) : map2d (fun v => v) a = a.
Proof.
  unfold map2d. rewrite <- (map_id a) at 2. apply map_ext. intros row. apply map_id.
Qed.

Lemma zip2d_map2d_left {A B C : Type} (f : B -> A -> C) (g : A -> B)
    (a : list (list A)) :
  zip2d f (map2d g a) a = map2d (fun v => f (g v) v) a.
Proof. rewrite <- (map2d_id a) at 2. apply zip2d_map2d. Qed.

Lemma map2d_map2d {A B C : Type} (f : B -> C) (g : A -> B) (a : list (list A)) :
  map2d f (map2d g a) = map2d (fun v => f (g v)) a.
Proof.
  unfold map2d. rewrite map_map. apply map_ext. intros row. apply map_map.
Qed.

Lemma map2d_ext_in {A B : Type} (f g : A -> B) (a : list (list A)) :
  (forall v, In v (concat a) -> f v = g v) -> map2d f a = map2d g a.
Proof.
  intros H. unfold map2d. apply map_ext_in. intros row Hrow.
  apply map_ext_in. intros v Hv. apply H. apply in_concat. eauto.
Qed.

Lemma concat_filter {A : Type} (p : A -> bool) (a : list (list A)) :
  concat (map (filter p) a) = filter p (concat a).
Proof.
  induction a as [|row a IH]; simpl; [reflexivity|].
  rewrite filter_app, IH. reflexivity.
Qed.

Lemma mask_select_map2d {A : Type} (p : A -> bool) (a : list (list A)) :
  mask_select (map2d p a) a = filter p (concat a).
Proof.
  unfold mask_select. rewrite zip2d_map2d_left. unfold map2d.
  rewrite map_map, <- concat_filter. f_equal. apply map_ext. intros row.
  induction row as [|v row IH]; simpl; [reflexivity|].
  rewrite IH. destruct (p v); reflexivity.
Qed.

Lemma mask_set_map2d {A : Type} (p : A -> bool) (value : A) (a : list (list A)) :
  mask_set (map2d p a) value a = map2d (fun v => if p v then value else v) a.
Proof. unfold mask_set. apply zip2d_map2d_left. Qed.

Lemma filter_filter_implied {A : Type} (f g : A -> bool) (l : list A) :
  (forall v, f v = true -> g v = true) -> filter f (filter g l) = filter f l.
Proof.
  intros H. induction l as [|x l IH]; simpl; [reflexivity|].
  destruct (g x) eqn:G; simpl; rewrite IH; [reflexivity|].
  destruct (f x) eqn:F; [|reflexivity]. rewrite (H _ F) in G. discriminate.
Qed.

Lemma filter_nil_iff {A : Type} (p : A -> bool) (l : list A) :
  filter p l = [] <-> forall v, In v l -> p v = false.
Proof.
  induction l as [|x l IH]; simpl.
  - split; [intros _ v [] | reflexivity].
  - destruct (p x) eqn:E; split.
    + discriminate.
    + intros H. specialize (H x (or_introl eq_refl)). congruence.
    + intros H v [<-|Hv]; [exact E | apply IH; assumption].
    + intros H. apply IH. intros v Hv. apply H. auto.
Qed.

(** ** Normalisation: which pixels count *)

Lemma kept_spec (v : scalar) : kept v = true <-> v <> PInf /\ v <> NaN.
Proof.
  unfold kept. rewrite sneb_self.
  destruct v; simpl; split; try congruence; try (intros [H1 H2]; congruence);
    intros _; split; congruence.
Qed.

Lemma kept_false (v : scalar) : kept v = false <-> v = PInf \/ v = NaN.
Proof.
  unfold kept. rewrite sneb_self.
  destruct v; simpl; split; auto; try congruence; intros [H|H]; congruence.
Qed.

Lemma valid_selection (disparity : matrix) :
  mask_select
    (map2d negb
       (zip2d orb (map2d (fun v => v ==? PInf)%sc disparity)
                  (map2d (fun v => v !=? v)%sc disparity)))
    disparity
  = filter kept (concat disparity).
Proof. rewrite zip2d_map2d, map2d_map2d. apply mask_select_map2d. Qed.

Lemma fold_maximum_skips_NInf (l : list scalar) (q : Q) :
  Forall (fun v => v = NInf \/ is_finite v = true) l ->
  fold_left np_maximum l (Fin q) = fold_left np_maximum (filter is_finite l) (Fin q).
Proof.
  revert q. induction l as [|y l IH]; intros q H; simpl; [reflexivity|].
  inversion H as [|? ? Hy Hl]; subst.
  destruct Hy as [->|Hy].
  - simpl. apply IH; assumption.
  - destruct y; try discriminate. simpl.
    unfold np_maximum at 2 4. simpl. destruct (Qle_bool q q0); apply IH; assumption.
Qed.

Lemma fold_maximum_from_NInf (l : list scalar) :
  Forall (fun v => v = NInf \/ is_finite v = true) l ->
  filter is_finite l <> [] ->
  inr (fold_left np_maximum l NInf) = array_max (filter is_finite l).
Proof.
  induction l as [|y l IH]; intros H Hne; simpl in *; [congruence|].
  inversion H as [|? ? Hy Hl]; subst.
  destruct Hy as [->|Hy].
  - simpl in *. apply IH; assumption.
  - destruct y; try discriminate. simpl.
    unfold ret. f_equal. apply fold_maximum_skips_NInf; assumption.
Qed.

(** When a finite pixel exists, leaving [-inf] in the selection does not
    change the maximum. *)
Lemma array_max_kept_is_max_finite (disparity : matrix) :
  filter is_finite (concat disparity) <> [] ->
  array_max (filter kept (concat disparity)) = max_finite disparity.
Proof.
  intros Hne. unfold max_finite.
  assert (HF : Forall (fun v => v = NInf \/ is_finite v = true)
                 (filter kept (concat disparity))).
  { apply Forall_forall. intros v Hv. apply filter_In in Hv. destruct Hv as [_ Hk].
    apply kept_spec in Hk. destruct v; simpl; auto; destruct Hk; congruence. }
  assert (HE : filter is_finite (filter kept (concat disparity))
               = filter is_finite (concat disparity)).
  { apply filter_filter_implied. intros v Hv. apply kept_spec.
    destruct v; simpl in Hv; try discriminate. split; discriminate. }
  rewrite <- HE in *. clear HE.
  destruct (filter kept (concat disparity)) as [|y l]; [simpl in Hne; congruence|].
  inversion HF as [|? ? Hy Hl]; subst.
  destruct Hy as [->|Hy].
  - simpl in *. unfold ret. apply fold_maximum_from_NInf; assumption.
  - destruct y; try discriminate. simpl. unfold ret. f_equal.
    apply fold_maximum_skips_NInf; assumption.
Qed.

(** ** Scaling and truncation *)

Lemma Qsign_Gt (q : Q) : (0 < q)%Q -> Qsign q = Gt.
Proof.
  unfold Qsign, Qlt. simpl. rewrite Z.mul_1_r. intros H.
  apply Z.compare_gt_iff. exact H.
Qed.

Lemma Qtrunc_nonneg (q : Q) : (0 <= q)%Q -> Qtrunc q = Qfloor q.
Proof.
  destruct q as [n d]. unfold Qle, Qtrunc, Qfloor. simpl. rewrite Z.mul_1_r.
  intros H. apply Z.quot_div_nonneg; lia.
Qed.

Lemma sdiv_Fin_pos (q m : Q) : (0 < m)%Q -> (Fin q / Fin m)%sc = Fin (Qred (q / m)).
Proof. intros H. simpl. rewrite (Qsign_Gt m H). reflexivity. Qed.

Lemma scaled_value (q m : Q) (n : Z) :
  (0 < m)%Q ->
  exists s, (Fin q / Fin m * of_Z n)%sc = Fin s /\ (s == q / m * inject_Z n)%Q.
Proof.
  intros H. rewrite (sdiv_Fin_pos q m H).
  exists (Qred (Qred (q / m) * inject_Z n)). split; [reflexivity|].
  rewrite !Qred_correct. reflexivity.
Qed.

(** A finite value between 0 and the (positive) divisor is scaled into
    [0, n] and truncated; the cast is the floor. *)
Lemma scale_in_range (L : Libs) (bits n : Z) (q m : Q) :
  (0 < m)%Q -> (0 <= q)%Q -> (q <= m)%Q -> 0 <= n < 2 ^ bits ->
  astype_uint L bits (Fin q / Fin m * of_Z n)%sc = Qfloor (q / m * inject_Z n)
  /\ 0 <= Qfloor (q / m * inject_Z n) <= n.
Proof.
  intros Hm Hq Hqm Hn.
  destruct (scaled_value q m n Hm) as (s & -> & Hs).
  assert (Hn0 : (0 <= inject_Z n)%Q).
  { unfold Qle. simpl. lia. }
  assert (Hlo : (0 <= q / m * inject_Z n)%Q).
  { apply Qmult_le_0_compat; [|exact Hn0].
    apply Qle_shift_div_l; [exact Hm|]. rewrite Qmult_0_l. exact Hq. }
  assert (Hhi : (q / m * inject_Z n <= inject_Z n)%Q).
  { rewrite <- (Qmult_1_l (inject_Z n)) at 2.
    apply Qmult_le_compat_r; [|exact Hn0].
    apply Qle_shift_div_r; [exact Hm|]. rewrite Qmult_1_l. exact Hqm. }
  assert (Hfl : 0 <= Qfloor (q / m * inject_Z n) <= n).
  { split.
    - change 0 with (Qfloor (inject_Z 0)). apply Qfloor_resp_le. exact Hlo.
    - rewrite <- (Qfloor_Z n) at 2. apply Qfloor_resp_le. exact Hhi. }
  split; [|exact Hfl].
  unfold astype_uint. rewrite Qtrunc_nonneg by (rewrite Hs; exact Hlo).
  rewrite (Qfloor_comp _ _ Hs). cbv zeta.
  destruct (0 <=? Qfloor (q / m * inject_Z n)) eqn:E1;
    [|apply Z.leb_gt in E1; lia].
  destruct (Qfloor (q / m * inject_Z n) <? 2 ^ bits) eqn:E2;
    [|apply Z.ltb_ge in E2; lia].
  reflexivity.
Qed.

(** The divisor itself is scaled to [n]. *)
(** The same, without the digits of the scaled value: it is a finite value
    of the interval from 0 to [n], and the cast is its floor. *)
Lemma scale_truncated (L : Libs) (bits n : Z) (q m : Q) :
  (0 < m)%Q -> (0 <= q)%Q -> (q <= m)%Q -> 0 <= n < 2 ^ bits ->
  exists x : Q,
    (Fin q / Fin m * of_Z n)%sc = Fin x
    /\ (0 <= x)%Q /\ (x <= inject_Z n)%Q
    /\ astype_uint L bits (Fin x) = Qfloor x
    /\ 0 <= Qfloor x <= n.
Proof.
  intros Hm Hq Hqm Hn.
  destruct (scale_in_range L bits n q m Hm Hq Hqm Hn) as [Hcast Hfl].
  destruct (scaled_value q m n Hm) as (x & Hx & Hxq).
  exists x. rewrite Hx in Hcast. rewrite (Qfloor_comp _ _ Hxq).
  assert (Hn0 : (0 <= inject_Z n)%Q) by (unfold Qle; simpl; lia).
  assert (Hlo : (0 <= x)%Q).
  { rewrite Hxq. apply Qmult_le_0_compat; [|exact Hn0].
    apply Qle_shift_div_l; [exact Hm|]. rewrite Qmult_0_l. exact Hq. }
  assert (Hhi : (x <= inject_Z n)%Q).
  { rewrite Hxq. rewrite <- (Qmult_1_l (inject_Z n)) at 2.
    apply Qmult_le_compat_r; [|exact Hn0].
    apply Qle_shift_div_r; [exact Hm|]. rewrite Qmult_1_l. exact Hqm. }
  tauto.
Qed.

Lemma scale_of_maximum (L : Libs) (bits n : Z) (q m : Q) :
  (0 < m)%Q -> (q == m)%Q -> 0 <= n < 2 ^ bits ->
  astype_uint L bits (Fin q / Fin m * of_Z n)%sc = n.
Proof.
  intros Hm Hq Hn.
  destruct (scale_in_range L bits n q m Hm) as [-> _]; try assumption.
  - rewrite Hq. apply Qlt_le_weak; exact Hm.
  - rewrite Hq. apply Qle_refl.
  - rewrite <- (Qfloor_Z n) at 2. apply Qfloor_comp.
    rewrite Hq. field. intro H0. rewrite H0 in Hm. exact (Qlt_irrefl _ Hm).
Qed.

(** ** [normalise_disparity_16b] and [normalise_disparity_8b] *)

Lemma normalise_disparity_16b_unfold (L : Libs) (disparity : matrix) :
  normalise_disparity_16b L disparity
  = (old_max <- array_max (filter kept (concat disparity)) ;;
     ret (map2d (fun v =>
                   astype_uint L 16
                     (v / (if (old_max <=? zero)%sc then one else old_max)
                      * of_Z uint16_max)%sc)
                disparity)).
Proof.
  unfold normalise_disparity_16b. rewrite valid_selection.
  destruct (array_max (filter kept (concat disparity))); simpl; [reflexivity|].
  rewrite map2d_map2d. reflexivity.
Qed.

Lemma normalise_disparity_8b_unfold (L : Libs) (disparity : matrix) :
  normalise_disparity_8b L disparity
  = (old_max <- array_max (filter kept (concat disparity)) ;;
     ret (map2d (fun v =>
                   astype_uint L 8
                     (v / (if (old_max <=? zero)%sc then one else old_max)
                      * of_Z uint8_max)%sc)
                disparity)).
Proof.
  unfold normalise_disparity_8b. rewrite valid_selection.
  destruct (array_max (filter kept (concat disparity))); simpl; [reflexivity|].
  rewrite map2d_map2d. reflexivity.
Qed.

Lemma bind_ret_inl {A B : Type} (m : result A) (f : A -> B) (e : exn) :
  (x <- m ;; ret (f x)) = inl e <-> m = inl e.
Proof. destruct m; simpl; unfold ret; split; congruence. Qed.

Lemma no_kept_pixel (disparity : matrix) :
  (forall v, In v (concat disparity) -> v = PInf \/ v = NaN)
  <-> array_max (filter kept (concat disparity)) = inl (ValueError zero_size_max).
Proof.
  rewrite array_max_inl, filter_nil_iff. split.
  - intros H. split; [|reflexivity]. intros v Hv. apply kept_false. auto.
  - intros [H _] v Hv. apply kept_false. auto.
Qed.

(** C10.  The two normalisations are partial: each raises NumPy's
    [ValueError] for the maximum of an empty selection exactly when every
    pixel of the map is [+inf] or NaN (in particular when the map has no
    pixel at all), and returns a normalised map otherwise. *)
Theorem normalise_disparity_needs_a_valid_pixel (L : Libs) (disparity : matrix) :
  ((forall v, In v (concat disparity) -> v = PInf \/ v = NaN)
   <-> normalise_disparity_16b L disparity = inl (ValueError zero_size_max))
  /\ ((forall v, In v (concat disparity) -> v = PInf \/ v = NaN)
      <-> normalise_disparity_8b L disparity = inl (ValueError zero_size_max))
  /\ ((exists v, In v (concat disparity) /\ v <> PInf /\ v <> NaN)
      <-> exists out, normalise_disparity_16b L disparity = inr out)
  /\ ((exists v, In v (concat disparity) /\ v <> PInf /\ v <> NaN)
      <-> exists out, normalise_disparity_8b L disparity = inr out).
Proof.
  rewrite normalise_disparity_16b_unfold, normalise_disparity_8b_unfold.
  rewrite !bind_ret_inl, <- no_kept_pixel.
  assert (Hex : (exists v, In v (concat disparity) /\ v <> PInf /\ v <> NaN)
                <-> exists m, array_max (filter kept (concat disparity)) = inr m).
  { split.
    - intros (v & Hv & Hk). apply array_max_inr. intro Hnil.
      assert (Hin : In v (filter kept (concat disparity))).
      { apply filter_In. split; [exact Hv | apply kept_spec; exact Hk]. }
      rewrite Hnil in Hin. exact Hin.
    - intros (m & Hm).
      destruct (filter kept (concat disparity)) as [|v l] eqn:E; [discriminate|].
      assert (Hin : In v (filter kept (concat disparity))) by (rewrite E; left; reflexivity).
      apply filter_In in Hin. destruct Hin as [Hv Hk]. apply kept_spec in Hk. eauto. }
  repeat split; try tauto.
  - intros H. apply Hex in H. destruct H as (m & ->). simpl. eexists; reflexivity.
  - intros (out & H). apply Hex.
    destruct (array_max (filter kept (concat disparity))); [discriminate | eauto].
  - intros H. apply Hex in H. destruct H as (m & ->). simpl. eexists; reflexivity.
  - intros (out & H). apply Hex.
    destruct (array_max (filter kept (concat disparity))); [discriminate | eauto].
Qed.

Lemma max_finite_is_finite (disparity : matrix) :
  filter is_finite (concat disparity) <> [] ->
  exists m : Q, max_finite disparity = inr (Fin m)
                /\ In (Fin m) (concat disparity)
                /\ forall q, In (Fin q) (concat disparity) -> (q <= m)%Q.
Proof.
  intros Hne. unfold max_finite.
  destruct (array_max_spec (filter is_finite (concat disparity)) Hne)
    as (m & Hm & _ & Hin & Hub).
  { apply Forall_forall. intros v Hv. apply filter_In in Hv.
    destruct v; simpl in *; intuition congruence. }
  apply filter_In in Hin. destruct Hin as [Hin Hf].
  destruct m as [| | |m]; try discriminate.
  exists m. repeat split; auto.
  intros q Hq. apply sleb_Fin. apply Hub. apply filter_In. auto.
Qed.

(** What both normalisations compute once the selection is written as a
    filter, for a target type of [bits] bits whose largest value is [n]. *)
Lemma normalise_scales_to_max (L : Libs) (bits n : Z) (disparity : matrix) :
  0 <= n < 2 ^ bits ->
  (exists v, In v (concat disparity) /\ is_finite v = true) ->
  exists max_value : Q,
    max_finite disparity = inr (Fin max_value)
    /\ In (Fin max_value) (concat disparity)
    /\ (forall q, In (Fin q) (concat disparity) -> (q <= max_value)%Q)
    /\ let old_max := if Qle_bool max_value 0 then 1%Q else max_value in
       (old_max' <- array_max (filter kept (concat disparity)) ;;
        ret (map2d (fun v =>
                      astype_uint L bits
                        (v / (if (old_max' <=? zero)%sc then one else old_max')
                         * of_Z n)%sc)
                   disparity))
       = inr (map2d (fun v => astype_uint L bits (v / Fin old_max * of_Z n)%sc)
                    disparity)
       /\ (forall q, (0 < max_value)%Q -> (q == max_value)%Q ->
             astype_uint L bits (Fin q / Fin old_max * of_Z n)%sc = n)
       /\ (forall q, (0 <= q)%Q -> (q <= old_max)%Q ->
             astype_uint L bits (Fin q / Fin old_max * of_Z n)%sc
             = Qfloor (q / old_max * inject_Z n)
             /\ 0 <= Qfloor (q / old_max * inject_Z n) <= n).
Proof.
  intros Hn (v & Hv & Hfin).
  assert (Hne : filter is_finite (concat disparity) <> []).
  { intro Hnil. assert (Hin : In v (filter is_finite (concat disparity))).
    { apply filter_In. auto. }
    rewrite Hnil in Hin. exact Hin. }
  destruct (max_finite_is_finite disparity Hne) as (m & Hm & Hin & Hub).
  exists m. split; [exact Hm|]. split; [exact Hin|]. split; [exact Hub|].
  cbv zeta.
  assert (Hpos : (0 < (if Qle_bool m 0 then 1 else m))%Q).
  { destruct (Qle_bool m 0) eqn:E; [reflexivity|].
    apply sleb_Fin_false. exact E. }
  split; [|split].
  - rewrite (array_max_kept_is_max_finite _ Hne), Hm.
    cbn [bind]. unfold ret. f_equal. apply map2d_ext_in. intros x _.
    replace (if (Fin m <=? zero)%sc then one else Fin m)
      with (Fin (if Qle_bool m 0 then 1 else m)); [reflexivity|].
    unfold sleb, zero, one, of_Z.
    change (inject_Z 0) with 0%Q. change (inject_Z 1) with 1%Q.
    destruct (Qle_bool m 0); reflexivity.
  - intros q Hq Heq. apply scale_of_maximum; [exact Hpos | | exact Hn].
    destruct (Qle_bool m 0) eqn:E; [|exact Heq].
    apply Qle_bool_iff in E. exfalso. exact (Qlt_not_le _ _ Hq E).
  - intros q Hq0 Hq1. apply (scale_in_range L bits n); auto.
Qed.

(** The divisor of the normalisations is positive. *)
Lemma old_max_positive (m : Q) : (0 < (if Qle_bool m 0 then 1 else m))%Q.
Proof.
  destruct (Qle_bool m 0) eqn:E; [reflexivity|]. apply sleb_Fin_false. exact E.
Qed.

(** C7.  On a map with at least one finite pixel, the maximum that
    [normalise_disparity_16b] takes is the maximum finite value [max_value]
    of the map: [+inf] and NaN are masked out, and a [-inf] left in the
    selection never wins.  The divisor [old_max] is that maximum, or 1 when
    the maximum is <= 0, and every pixel [v] becomes
    [(v / old_max * 65535).astype(np.uint16)].  So a pixel equal to a positive
    maximum becomes 65535; and for every finite pixel from 0 to [old_max] the
    scaled value is a finite number from 0 to 65535, which the cast
    truncates: the result is the floor of the scaled value, between 0 and
    65535. *)
Theorem normalise_disparity_16b_scales_to_max (L : Libs) (disparity : matrix) :
  (exists v, In v (concat disparity) /\ is_finite v = true) ->
  exists max_value : Q,
    max_finite disparity = inr (Fin max_value)
    /\ In (Fin max_value) (concat disparity)
    /\ (forall q, In (Fin q) (concat disparity) -> (q <= max_value)%Q)
    /\ let old_max := if Qle_bool max_value 0 then 1%Q else max_value in
       normalise_disparity_16b L disparity
       = inr (map2d (fun v => astype_uint L 16 (v / Fin old_max * of_Z 65535)%sc)
                    disparity)
       /\ (forall q, (0 < max_value)%Q -> (q == max_value)%Q ->
             astype_uint L 16 (Fin q / Fin old_max * of_Z 65535)%sc = 65535)
       /\ (forall q, (0 <= q)%Q -> (q <= old_max)%Q ->
             exists x : Q,
               (Fin q / Fin old_max * of_Z 65535)%sc = Fin x
               /\ (0 <= x)%Q /\ (x <= 65535)%Q
               /\ astype_uint L 16 (Fin x) = Qfloor x
               /\ 0 <= Qfloor x <= 65535).
Proof.
  intros H. rewrite normalise_disparity_16b_unfold.
  destruct (normalise_scales_to_max L 16 65535 disparity)
    as (m & Hm & Hin & Hub & Hout & Hmax & _); [lia | exact H |].
  exists m. split; [exact Hm|]. split; [exact Hin|]. split; [exact Hub|]. cbv zeta.
  split; [exact Hout|]. split; [exact Hmax|].
  intros q Hq0 Hq1.
  apply (scale_truncated L 16 65535 q _ (old_max_positive m) Hq0 Hq1). lia.
Qed.

(** X7.  The 8-bit normalisation follows the same policy, scaled to 255:
    on a map with a finite pixel the divisor is the maximum finite value (1
    when that is <= 0), every pixel [v] becomes
    [(v / old_max * 255).astype(np.uint8)], a pixel equal to a positive
    maximum becomes 255, and for a finite pixel from 0 to [old_max] the
    scaled value is a finite number from 0 to 255, of which the result is
    the floor. *)
Lemma normalise_disparity_8b_scales_to_max (L : Libs) (disparity : matrix) :
  (exists v, In v (concat disparity) /\ is_finite v = true) ->
  exists max_value : Q,
    max_finite disparity = inr (Fin max_value)
    /\ let old_max := if Qle_bool max_value 0 then 1%Q else max_value in
       normalise_disparity_8b L disparity
       = inr (map2d (fun v => astype_uint L 8 (v / Fin old_max * of_Z 255)%sc)
                    disparity)
       /\ (forall q, (0 < max_value)%Q -> (q == max_value)%Q ->
             astype_uint L 8 (Fin q / Fin old_max * of_Z 255)%sc = 255)
       /\ (forall q, (0 <= q)%Q -> (q <= old_max)%Q ->
             exists x : Q,
               (Fin q / Fin old_max * of_Z 255)%sc = Fin x
               /\ (0 <= x)%Q /\ (x <= 255)%Q
               /\ astype_uint L 8 (Fin x) = Qfloor x
               /\ 0 <= Qfloor x <= 255).
Proof.
  intros H. rewrite normalise_disparity_8b_unfold.
  destruct (normalise_scales_to_max L 8 255 disparity)
    as (m & Hm & _ & _ & Hout & Hmax & _); [lia | exact H |].
  exists m. split; [exact Hm|]. cbv zeta.
  split; [exact Hout|]. split; [exact Hmax|].
  intros q Hq0 Hq1.
  apply (scale_truncated L 8 255 q _ (old_max_positive m) Hq0 Hq1). lia.
Qed.

(** The theorem at a map that holds every kind of pixel. *)
Lemma normalise_disparity_16b_scales_to_max_witness :
  let disparity := [[of_Z 1; PInf; of_Z 4]; [NaN; NInf; Fin (1 # 2)]] in
  (exists v, In v (concat disparity) /\ is_finite v = true)
  /\ max_finite disparity = inr (of_Z 4)
  /\ normalise_disparity_16b sample_libs disparity
     = inr [[16383; 0; 65535]; [0; 0; 8191]].
Proof.
  cbv zeta.
  assert (H : exists v, In v (concat [[of_Z 1; PInf; of_Z 4]; [NaN; NInf; Fin (1 # 2)]])
                        /\ is_finite v = true).
  { exists (of_Z 1). simpl. auto. }
  split; [exact H|].
  destruct (normalise_disparity_16b_scales_to_max sample_libs _ H)
    as (m & Hm & _ & _ & Hout & _).
  split; [reflexivity|].
  vm_compute in Hm. injection Hm as Hm. subst m.
  rewrite Hout. reflexivity.
Defined.

(** ** [shift_disp_down] *)

(** What becomes of one pixel: the shift, then the clamp. *)
Lemma shift_disp_down_unfold (disparity : matrix) :
  shift_disp_down disparity
  = (disparity_max <- array_max (concat disparity) ;;
     if (disparity_max <=? zero)%sc then ret disparity
     else
       non_zero_min <- array_min (filter (fun v => v !=? zero)%sc (concat disparity)) ;;
       ret (map2d (fun v =>
                     let shifted := (v - (non_zero_min + one))%sc in
                     if (shifted <? zero)%sc then zero else shifted)
                  disparity)).
Proof.
  unfold shift_disp_down. rewrite mask_select_map2d.
  destruct (array_max (concat disparity)) as [e|mx]; simpl; [reflexivity|].
  destruct (mx <=? zero)%sc; [reflexivity|].
  destruct (array_min _) as [e|z]; simpl; [reflexivity|].
  rewrite mask_set_map2d, map2d_map2d. reflexivity.
Qed.

Lemma seqb_zero (v : scalar) : (v ==? zero)%sc = true <-> exists q, v = Fin q /\ (q == 0)%Q.
Proof.
  destruct v; simpl; split; try discriminate; try (intros (q & H & _); discriminate).
  - intros H. exists q. split; [reflexivity | apply Qeq_bool_iff; exact H].
  - intros (q' & H & Hq). injection H as <-. apply Qeq_bool_iff. exact Hq.
Qed.

(** A maximum that is not <= 0 is a non-zero pixel (or NaN), so the
    selection of the non-zero pixels is not empty and [min] does not raise. *)
Lemma positive_max_has_nonzero (l : list scalar) (mx : scalar) :
  array_max l = inr mx -> (mx <=? zero)%sc = false ->
  filter (fun v => v !=? zero)%sc l <> [].
Proof.
  intros Hmx Hpos Hnil.
  assert (Hz : forall v, In v l -> (v ==? zero)%sc = true).
  { intros v Hv. apply (proj1 (filter_nil_iff _ l) Hnil) in Hv.
    unfold sneb in Hv. apply negb_false_iff. exact Hv. }
  assert (Hl : l <> []) by (intro E; subst l; discriminate).
  destruct (array_max_spec l Hl) as (m & Hm & _ & Hin & _).
  { apply Forall_forall. intros v Hv. apply Hz, seqb_zero in Hv.
    destruct Hv as (q & -> & _). reflexivity. }
  rewrite Hmx in Hm. injection Hm as <-.
  apply Hz, seqb_zero in Hin. destruct Hin as (q & -> & Hq).
  assert (Hle : (Fin q <=? zero)%sc = true).
  { apply sleb_Fin. rewrite Hq. apply Qle_refl. }
  congruence.
Qed.

Lemma nonzero_is_positive (v : scalar) :
  (zero <=? v)%sc = true -> (v !=? zero)%sc = (zero <? v)%sc.
Proof.
  destruct v; simpl; try discriminate; try reflexivity.
  intros H. apply Qle_bool_iff in H. unfold sneb. simpl. f_equal.
  destruct (Qle_bool q (inject_Z 0)) eqn:E.
  - apply Qeq_bool_iff. apply Qle_bool_iff in E. apply Qle_antisym; assumption.
  - destruct (Qeq_bool q (inject_Z 0)) eqn:E'; [|reflexivity].
    apply Qeq_bool_iff in E'. rewrite <- E. symmetry. apply Qle_bool_iff.
    rewrite E'. apply Qle_refl.
Qed.

(** When the maximum is not <= 0: the minimum over the non-zero pixels
    exists, and every pixel is shifted by it and clamped. *)
Lemma shift_disp_down_shifts (disparity : matrix) (disparity_max : scalar) :
  array_max (concat disparity) = inr disparity_max ->
  (disparity_max <=? zero)%sc = false ->
  exists non_zero_min,
    array_min (filter (fun v => v !=? zero)%sc (concat disparity)) = inr non_zero_min
    /\ shift_disp_down disparity
       = inr (map2d (fun v =>
                       let shifted := (v - (non_zero_min + one))%sc in
                       if (shifted <? zero)%sc then zero else shifted)
                    disparity)
    /\ ((forall v, In v (concat disparity) -> is_nan v = false) ->
        In non_zero_min (concat disparity)
        /\ (non_zero_min !=? zero)%sc = true
        /\ forall v, In v (concat disparity) -> (v !=? zero)%sc = true ->
                     (non_zero_min <=? v)%sc = true).
Proof.
  intros Hmx Hpos. rewrite shift_disp_down_unfold, Hmx. cbn [bind]. rewrite Hpos.
  pose proof (positive_max_has_nonzero _ _ Hmx Hpos) as Hne.
  destruct (filter (fun v => v !=? zero)%sc (concat disparity)) as [|x l] eqn:E;
    [congruence|].
  exists (fold_left np_minimum l x). split; [reflexivity|]. split; [reflexivity|].
  intros Hnan.
  destruct (array_min_spec (x :: l)) as (m & Hm & _ & Hin & Hlb); [discriminate| |].
  { apply Forall_forall. intros v Hv. rewrite <- E in Hv.
    apply filter_In in Hv. apply Hnan. tauto. }
  injection Hm as <-. rewrite <- E in Hin, Hlb.
  apply filter_In in Hin. destruct Hin as [Hin Hnz].
  repeat split; auto.
  intros v Hv Hvnz. apply Hlb. apply filter_In. auto.
Qed.

Lemma shift_disp_down_noop (disparity : matrix) (disparity_max : scalar) :
  array_max (concat disparity) = inr disparity_max ->
  (disparity_max <=? zero)%sc = true ->
  shift_disp_down disparity = inr disparity.
Proof.
  intros Hmx Hle. rewrite shift_disp_down_unfold, Hmx. cbn [bind]. rewrite Hle.
  reflexivity.
Qed.

(** C8, as the code has it.  When the maximum of the map is <= 0 the map is
    returned unchanged.  Otherwise the minimum is taken over the non-zero
    pixels (a negative pixel counts), [minimum + 1] is subtracted from every
    pixel and results below 0 are set to 0; on a map without NaN that minimum
    is a non-zero pixel that bounds every non-zero pixel from below.  On a
    map with no negative pixel and no NaN this is the minimum strictly
    positive value, and the function is the one the specification words. *)
Theorem shift_disp_down_spec (disparity : matrix) (disparity_max : scalar) :
  array_max (concat disparity) = inr disparity_max ->
  ((disparity_max <=? zero)%sc = true -> shift_disp_down disparity = inr disparity)
  /\ ((disparity_max <=? zero)%sc = false ->
      exists non_zero_min,
        array_min (filter (fun v => v !=? zero)%sc (concat disparity)) = inr non_zero_min
        /\ shift_disp_down disparity
           = inr (map2d (fun v =>
                           let shifted := (v - (non_zero_min + one))%sc in
                           if (shifted <? zero)%sc then zero else shifted)
                        disparity)
        /\ ((forall v, In v (concat disparity) -> is_nan v = false) ->
            In non_zero_min (concat disparity)
            /\ (non_zero_min !=? zero)%sc = true
            /\ forall v, In v (concat disparity) -> (v !=? zero)%sc = true ->
                         (non_zero_min <=? v)%sc = true))
  /\ ((forall v, In v (concat disparity) -> (zero <=? v)%sc = true) ->
      shift_disp_down disparity = shift_down_min_positive disparity).
Proof.
  intros Hmx. split; [|split].
  - apply shift_disp_down_noop. exact Hmx.
  - apply shift_disp_down_shifts. exact Hmx.
  - intros Hge. rewrite shift_disp_down_unfold. unfold shift_down_min_positive.
    rewrite Hmx. cbn [bind]. destruct (disparity_max <=? zero)%sc; [reflexivity|].
    rewrite (filter_ext_in (fun v => v !=? zero)%sc (fun v => zero <? v)%sc);
      [reflexivity|].
    intros v Hv. apply nonzero_is_positive. auto.
Qed.

(** The theorem at a map with a gap between 0 and its first value. *)
Lemma shift_disp_down_spec_witness :
  let disparity := [[zero; of_Z 3]; [of_Z 7; of_Z 4]] in
  array_max (concat disparity) = inr (of_Z 7)
  /\ shift_disp_down disparity = inr [[zero; zero]; [of_Z 3; zero]]
  /\ shift_disp_down disparity = shift_down_min_positive disparity.
Proof.
  cbv zeta.
  destruct (shift_disp_down_spec [[zero; of_Z 3]; [of_Z 7; of_Z 4]] (of_Z 7) eq_refl)
    as (_ & _ & Hsame).
  split; [reflexivity|]. split; [reflexivity|].
  apply Hsame. intros v Hv. simpl in Hv.
  repeat (destruct Hv as [<-|Hv]; [reflexivity|]). destruct Hv.
Defined.

(** C8, as the claim has it, fails on a map with a negative pixel (the mark
    OpenCV's matchers leave at pixels without a match): the code takes -1 as
    the minimum and subtracts 0, the claim takes 5 and subtracts 6. *)
Lemma shift_disp_down_takes_negative_minimum :
  let disparity := [[of_Z (-1); of_Z 5]] in
  array_max (concat disparity) = inr (of_Z 5)
  /\ array_min (filter (fun v => zero <? v)%sc (concat disparity)) = inr (of_Z 5)
  /\ shift_down_min_positive disparity = inr [[zero; zero]]
  /\ shift_disp_down disparity = inr [[zero; of_Z 5]]
  /\ shift_disp_down disparity <> shift_down_min_positive disparity.
Proof. cbv zeta. repeat split; try reflexivity. discriminate. Qed.

(** *** Applying [shift_disp_down] twice *)

Lemma map2d_fixed {A : Type} (f : A -> A) (a : list (list A)) :
  map2d f a = a -> forall v, In v (concat a) -> f v = v.
Proof.
  intros H v Hv. apply in_concat in Hv. destruct Hv as (row & Hrow & Hv).
  assert (Hr : map f row = row).
  { unfold map2d in H. revert Hrow. clear Hv. induction a as [|r a IH]; [intros []|].
    simpl in H. injection H as H1 H2. intros [<-|Hin]; auto. }
  clear Hrow H. induction row as [|x row IH]; [destruct Hv|].
  simpl in Hr. injection Hr as H1 H2. destruct Hv as [<-|Hv]; auto.
Qed.

Lemma in_concat_map2d {A B : Type} (f : A -> B) (a : list (list A)) (w : B) :
  In w (concat (map2d f a)) -> exists v, In v (concat a) /\ w = f v.
Proof.
  unfold map2d. rewrite <- concat_map. intros H. apply in_map_iff in H.
  destruct H as (v & <- & Hv). eauto.
Qed.

(** The shift moves a finite pixel equal to the minimum to 0. *)
Lemma minimum_goes_to_zero (q : Q) :
  let shifted := (Fin q - (Fin q + one))%sc in
  (if (shifted <? zero)%sc then zero else shifted) = zero.
Proof.
  cbv zeta.
  assert (H : (Fin q - (Fin q + one) <? zero)%sc = true).
  { unfold one, zero, of_Z, sadd, ssub, fin. apply sltb_Fin.
    rewrite !Qred_correct. change (inject_Z 1) with 1%Q. change (inject_Z 0) with 0%Q.
    lra. }
  rewrite H. reflexivity.
Qed.

(** On a map of finite values whose maximum is not <= 0, the shift changes
    the minimum non-zero pixel, so it is not a no-op. *)
Lemma shift_disp_down_moves (disparity : matrix) (disparity_max : scalar) :
  (forall v, In v (concat disparity) -> is_finite v = true) ->
  array_max (concat disparity) = inr disparity_max ->
  (disparity_max <=? zero)%sc = false ->
  shift_disp_down disparity <> inr disparity.
Proof.
  intros Hfin Hmx Hpos Hfix.
  destruct (shift_disp_down_shifts disparity disparity_max Hmx Hpos)
    as (z & _ & Heq & Hz).
  destruct Hz as (Hin & Hnz & _).
  { intros v Hv. apply Hfin in Hv. destruct v; simpl in *; congruence. }
  rewrite Heq in Hfix. injection Hfix as Hfix.
  pose proof (map2d_fixed _ _ Hfix z Hin) as Hz.
  pose proof (Hfin z Hin) as Hzf. destruct z as [| | |q]; try discriminate.
  rewrite minimum_goes_to_zero in Hz. rewrite <- Hz in Hnz.
  discriminate.
Qed.

Lemma shift_disp_down_finite (disparity shifted : matrix) :
  (forall v, In v (concat disparity) -> is_finite v = true) ->
  shift_disp_down disparity = inr shifted ->
  forall v, In v (concat shifted) -> is_finite v = true.
Proof.
  intros Hfin Hs. rewrite shift_disp_down_unfold in Hs.
  destruct (array_max (concat disparity)) as [e|mx] eqn:Hmx; [discriminate|].
  cbn [bind] in Hs. destruct (mx <=? zero)%sc eqn:Hpos.
  - injection Hs as <-. exact Hfin.
  - destruct (shift_disp_down_shifts disparity mx Hmx Hpos) as (z & Hmin & _ & Hz).
    destruct Hz as (Hin & _).
    { intros v Hv. apply Hfin in Hv. destruct v; simpl in *; congruence. }
    rewrite Hmin in Hs. cbn [bind] in Hs. injection Hs as <-.
    intros w Hw. apply in_concat_map2d in Hw. destruct Hw as (v & Hv & ->).
    apply Hfin in Hv. apply Hfin in Hin.
    destruct v, z; try discriminate. cbv zeta.
    unfold one, of_Z, sadd, ssub, fin.
    destruct (_ <? _)%sc; reflexivity.
Qed.

(** C9, as the code has it.  For a map of finite values, a second
    application of [shift_disp_down] is a no-op exactly when the first one
    left no positive disparity: when the maximum of the shifted map is <= 0.
    While a positive disparity remains, each application moves the smallest
    one to 0. *)
Theorem shift_disp_down_twice (disparity shifted : matrix) :
  (forall v, In v (concat disparity) -> is_finite v = true) ->
  shift_disp_down disparity = inr shifted ->
  (shift_disp_down shifted = inr shifted
   <-> exists shifted_max,
         array_max (concat shifted) = inr shifted_max
         /\ (shifted_max <=? zero)%sc = true).
Proof.
  intros Hfin Hs. pose proof (shift_disp_down_finite _ _ Hfin Hs) as Hfin'.
  split.
  - intros Hfix.
    destruct (array_max (concat shifted)) as [e|mx] eqn:Hmx.
    + rewrite shift_disp_down_unfold, Hmx in Hfix. discriminate.
    + exists mx. split; [reflexivity|].
      destruct (mx <=? zero)%sc eqn:Hpos; [reflexivity|].
      exfalso. exact (shift_disp_down_moves shifted mx Hfin' Hmx Hpos Hfix).
  - intros (mx & Hmx & Hle). exact (shift_disp_down_noop shifted mx Hmx Hle).
Qed.

(** The theorem at a map that one application shifts to all zeros. *)
Lemma shift_disp_down_twice_witness :
  let disparity := [[zero; of_Z 3]; [of_Z 4; of_Z 3]] in
  (forall v, In v (concat disparity) -> is_finite v = true)
  /\ shift_disp_down disparity = inr [[zero; zero]; [zero; zero]]
  /\ shift_disp_down [[zero; zero]; [zero; zero]] = inr [[zero; zero]; [zero; zero]].
Proof.
  cbv zeta.
  assert (Hfin : forall v, In v (concat [[zero; of_Z 3]; [of_Z 4; of_Z 3]]) ->
                           is_finite v = true).
  { intros v Hv. simpl in Hv.
    repeat (destruct Hv as [<-|Hv]; [reflexivity|]). destruct Hv. }
  split; [exact Hfin|]. split; [reflexivity|].
  apply (shift_disp_down_twice [[zero; of_Z 3]; [of_Z 4; of_Z 3]] _ Hfin eq_refl).
  exists zero. split; reflexivity.
Defined.

(** C9, as the claim has it, fails: after one application the remaining
    positive disparities of this map start at 1, the smallest value a shift
    can leave above 0, and the second application still changes the map. *)
Lemma shift_disp_down_not_idempotent :
  let disparity := [[of_Z 1; of_Z 3; of_Z 4]] in
  shift_disp_down disparity = inr [[zero; of_Z 1; of_Z 2]]
  /\ array_min (filter (fun v => zero <? v)%sc (concat [[zero; of_Z 1; of_Z 2]]))
     = inr (of_Z 1)
  /\ shift_disp_down [[zero; of_Z 1; of_Z 2]] = inr [[zero; zero; zero]]
  /\ shift_disp_down [[zero; of_Z 1; of_Z 2]] <> inr [[zero; of_Z 1; of_Z 2]].
Proof. cbv zeta. repeat split; try reflexivity. discriminate. Qed.

(** ** Slices *)

Lemma py_slice_bounds (len : nat) (start stop : Z) :
  (fst (py_slice len start stop) <= snd (py_slice len start stop) <= len)%nat.
Proof.
  unfold py_slice, slice_bound. simpl.
  destruct (start <? 0) eqn:E1; destruct (stop <? 0) eqn:E2; lia.
Qed.

(** For a start and a length that are not negative, the slice is the
    interval itself, clipped to the sequence. *)
Lemma py_slice_nonneg (len : nat) (start width : Z) (i : nat) :
  0 <= start -> 0 <= width -> (i < len)%nat ->
  (fst (py_slice len start (start + width)) <=? i)%nat
  && (i <? snd (py_slice len start (start + width)))%nat
  = (start <=? Z.of_nat i) && (Z.of_nat i <? start + width).
Proof.
  intros Hs Hw Hi. unfold py_slice, slice_bound. simpl.
  destruct (start <? 0) eqn:E1; [apply Z.ltb_lt in E1; lia|].
  destruct (start + width <? 0) eqn:E2; [apply Z.ltb_lt in E2; lia|].
  apply eq_true_iff_eq.
  rewrite !andb_true_iff, Nat.leb_le, Nat.ltb_lt, Z.leb_le, Z.ltb_lt. lia.
Qed.

Lemma nth_error_slice_set {A : Type} (old new : list A) (s : nat * nat) (i : nat) :
  (fst s <= snd s <= length old)%nat -> length new = length old ->
  nth_error (slice_set old s (slice_get new s)) i
  = if in_slice s i then nth_error new i else nth_error old i.
Proof.
  destruct s as [lo hi]. unfold slice_set, slice_get, in_slice. simpl.
  intros Hb Hl.
  rewrite !nth_error_app, !length_firstn, length_skipn.
  rewrite nth_error_firstn, nth_error_firstn, !nth_error_skipn.
  replace (Nat.min lo (length old)) with lo by lia.
  replace (Nat.min (hi - lo) (length new - lo)) with (hi - lo)%nat by lia.
  destruct (lo <=? i)%nat eqn:E1; destruct (i <? hi)%nat eqn:E2; simpl;
    [apply Nat.leb_le in E1 | apply Nat.leb_le in E1
     | apply Nat.leb_gt in E1 | apply Nat.leb_gt in E1];
    [apply Nat.ltb_lt in E2 | apply Nat.ltb_ge in E2
     | apply Nat.ltb_lt in E2 | apply Nat.ltb_ge in E2].
  - destruct (i <? lo)%nat eqn:E3; [apply Nat.ltb_lt in E3; lia|].
    destruct (i - lo <? hi - lo)%nat eqn:E4; [|apply Nat.ltb_ge in E4; lia].
    f_equal. lia.
  - destruct (i <? lo)%nat eqn:E3; [apply Nat.ltb_lt in E3; lia|].
    destruct (i - lo <? hi - lo)%nat eqn:E4; [apply Nat.ltb_lt in E4; lia|].
    f_equal. lia.
  - destruct (i <? lo)%nat eqn:E3; [reflexivity | apply Nat.ltb_ge in E3; lia].
  - lia.
Qed.

Lemma length_slice_set {A : Type} (old new : list A) (s : nat * nat) :
  (fst s <= snd s <= length old)%nat -> length new = length old ->
  length (slice_set old s (slice_get new s)) = length old.
Proof.
  destruct s as [lo hi]. unfold slice_set, slice_get. simpl. intros Hb Hl.
  rewrite !length_app, !length_firstn, !length_skipn. lia.
Qed.

Lemma nth_error_combine {A B : Type} (l : list A) (l' : list B) (i : nat) :
  nth_error (combine l l') i
  = match nth_error l i, nth_error l' i with
    | Some a, Some b => Some (a, b)
    | _, _ => None
    end.
Proof.
  revert l' i. induction l as [|a l IH]; intros [|b l'] [|i]; simpl; try reflexivity.
  - destruct (nth_error l i); reflexivity.
  - apply IH.
Qed.

Lemma combine_skipn {A B : Type} (l : list A) (l' : list B) (n : nat) :
  skipn n (combine l l') = combine (skipn n l) (skipn n l').
Proof.
  revert l l'. induction n as [|n IH]; intros [|a l] [|b l']; simpl; try reflexivity.
  - destruct (skipn n l); reflexivity.
  - apply IH.
Qed.

Lemma combine_slice_get {A B : Type} (l : list A) (l' : list B) (s : nat * nat) :
  combine (slice_get l s) (slice_get l' s) = slice_get (combine l l') s.
Proof. unfold slice_get. rewrite combine_skipn, combine_firstn. reflexivity. Qed.

Lemma map_slice_get {A B : Type} (f : A -> B) (l : list A) (s : nat * nat) :
  map f (slice_get l s) = slice_get (map f l) s.
Proof. unfold slice_get. rewrite <- firstn_map, <- skipn_map. reflexivity. Qed.

(** ** [apply_roi_to_disparity] *)

Lemma masked_image_rows (disparity : matrix) (r0 r1 c0 c1 : Z) :
  setitem2 (zeros_like disparity) r0 r1 c0 c1 (getitem2 disparity r0 r1 c0 c1)
  = slice_set (zeros_like disparity) (py_slice (length disparity) r0 r1)
      (slice_get (map (masked_row c0 c1) disparity) (py_slice (length disparity) r0 r1)).
Proof.
  unfold setitem2, getitem2, zeros_like, map2d. rewrite length_map.
  f_equal. rewrite <- !map_slice_get.
  set (rows := slice_get disparity (py_slice (length disparity) r0 r1)).
  clearbody rows. induction rows as [|row rows IH]; simpl; [reflexivity|].
  rewrite IH. f_equal. unfold masked_row. rewrite length_map. reflexivity.
Qed.

Lemma nth_error_masked_row (c0 c1 : Z) (row : list scalar) (c : nat) :
  nth_error (masked_row c0 c1 row) c
  = if in_slice (py_slice (length row) c0 c1) c
    then nth_error row c
    else option_map (fun _ => zero) (nth_error row c).
Proof.
  unfold masked_row. rewrite nth_error_slice_set.
  - rewrite nth_error_map. reflexivity.
  - rewrite length_map. apply py_slice_bounds.
  - rewrite length_map. reflexivity.
Qed.

Lemma length_masked_row (c0 c1 : Z) (row : list scalar) :
  length (masked_row c0 c1 row) = length row.
Proof.
  unfold masked_row. rewrite length_slice_set, length_map; try reflexivity.
  - rewrite length_map. apply py_slice_bounds.
  - rewrite length_map. reflexivity.
Qed.

Lemma nth_error_masked_image (disparity : matrix) (r0 r1 c0 c1 : Z) (r : nat) :
  nth_error
    (setitem2 (zeros_like disparity) r0 r1 c0 c1 (getitem2 disparity r0 r1 c0 c1)) r
  = option_map
      (fun row => if in_slice (py_slice (length disparity) r0 r1) r
                  then masked_row c0 c1 row
                  else map (fun _ => zero) row)
      (nth_error disparity r).
Proof.
  rewrite masked_image_rows, nth_error_slice_set.
  - unfold zeros_like, map2d. rewrite !nth_error_map.
    destruct (in_slice _ r), (nth_error disparity r); reflexivity.
  - unfold zeros_like, map2d. rewrite length_map. apply py_slice_bounds.
  - unfold zeros_like, map2d. rewrite !length_map. reflexivity.
Qed.

Lemma apply_roi_to_disparity_raises (self : StereoProcessor) (disparity : matrix) :
  (exists e, apply_roi_to_disparity self disparity = inl e)
  <-> (StereoParams.validROI1 (params self) = None
       \/ exists roi, StereoParams.validROI1 (params self) = Some roi
                      /\ length roi <> 4%nat).
Proof.
  unfold apply_roi_to_disparity.
  destruct (StereoParams.validROI1 (params self)) as [roi|].
  - destruct roi as [|x [|y [|w [|h [|k roi]]]]]; simpl; split;
      try (intros _; right; eexists; split; [reflexivity | simpl; lia]);
      try (intros _; eexists; reflexivity).
    + intros (e & He). discriminate.
    + intros [H|(roi & H & Hlen)]; [discriminate|].
      injection H as <-. simpl in Hlen. lia.
  - split; [auto | intros _; eexists; reflexivity].
Qed.

(** C6.  [apply_roi_to_disparity] raises (a [ValueError]) exactly when the
    stored region is [None] or has not exactly 4 components.  Otherwise, for
    a rectangle [(x, y, w, h)] (no component negative, as OpenCV returns it)
    and every map, the result has the shape of the map, every pixel inside
    the rectangle is the pixel of the input, and every other pixel is 0. *)
Theorem apply_roi_to_disparity_spec (self : StereoProcessor) (disparity : matrix) :
  ((exists e, apply_roi_to_disparity self disparity = inl e)
   <-> (StereoParams.validROI1 (params self) = None
        \/ exists roi, StereoParams.validROI1 (params self) = Some roi
                       /\ length roi <> 4%nat))
  /\ (forall e, apply_roi_to_disparity self disparity = inl e -> e = ValueError roi_msg)
  /\ (forall x y w h,
        StereoParams.validROI1 (params self) = Some [x; y; w; h] ->
        0 <= x -> 0 <= y -> 0 <= w -> 0 <= h ->
        exists masked_image,
          apply_roi_to_disparity self disparity = inr masked_image
          /\ map (@length scalar) masked_image = map (@length scalar) disparity
          /\ forall r c,
               pixel masked_image r c
               = if inside_roi x y w h r c
                 then pixel disparity r c
                 else option_map (fun _ => zero) (pixel disparity r c)).
Proof.
  split; [apply apply_roi_to_disparity_raises|]. split.
  - unfold apply_roi_to_disparity. intros e.
    destruct (StereoParams.validROI1 (params self)) as [roi|];
      [|intros H; injection H as <-; reflexivity].
    destruct roi as [|x [|y [|w [|h [|k roi]]]]]; intros H;
      try discriminate; injection H as <-; reflexivity.
  - intros x y w h Hroi Hx Hy Hw Hh.
    unfold apply_roi_to_disparity. rewrite Hroi.
    eexists. split; [reflexivity|]. split.
    + apply nth_error_ext. intros r.
      rewrite !nth_error_map, nth_error_masked_image.
      destruct (nth_error disparity r) as [row|]; simpl; [|reflexivity].
      destruct (in_slice _ r); [rewrite length_masked_row | rewrite length_map];
        reflexivity.
    + intros r c. unfold pixel. rewrite nth_error_masked_image.
      destruct (nth_error disparity r) as [row|] eqn:Hrow; simpl;
        [|destruct (inside_roi x y w h r c); reflexivity].
      assert (Hr : (r < length disparity)%nat).
      { apply nth_error_Some. congruence. }
      unfold inside_roi.
      rewrite <- (py_slice_nonneg (length disparity) y h r Hy Hh Hr).
      fold (in_slice (py_slice (length disparity) y (y + h)) r).
      destruct (in_slice (py_slice (length disparity) y (y + h)) r); simpl.
      * rewrite nth_error_masked_row.
        destruct (Nat.lt_ge_cases c (length row)) as [Hc|Hc].
        -- rewrite <- (py_slice_nonneg (length row) x w c Hx Hw Hc).
           reflexivity.
        -- apply nth_error_None in Hc. rewrite Hc. simpl.
           destruct (in_slice _ c); destruct (_ && _); reflexivity.
      * rewrite nth_error_map. reflexivity.
Qed.

(** The theorem at a 2x4 map and the region [(1, 0, 2, 1)]: two pixels of
    the first row are kept. *)
Lemma apply_roi_to_disparity_spec_witness :
  let self := sample_processor (Some [1; 0; 2; 1]) in
  let disparity := [[of_Z 1; of_Z 2; of_Z 3; of_Z 4]; [of_Z 5; of_Z 6; of_Z 7; of_Z 8]] in
  apply_roi_to_disparity self disparity
  = inr [[zero; of_Z 2; of_Z 3; zero]; [zero; zero; zero; zero]]
  /\ forall r c,
       pixel [[zero; of_Z 2; of_Z 3; zero]; [zero; zero; zero; zero]] r c
       = if inside_roi 1 0 2 1 r c
         then pixel disparity r c
         else option_map (fun _ => zero) (pixel disparity r c).
Proof.
  cbv zeta. split; [reflexivity|].
  destruct (apply_roi_to_disparity_spec (sample_processor (Some [1; 0; 2; 1]))
              [[of_Z 1; of_Z 2; of_Z 3; of_Z 4]; [of_Z 5; of_Z 6; of_Z 7; of_Z 8]])
    as (_ & _ & H).
  destruct (H 1 0 2 1 eq_refl) as (masked & Heq & _ & Hpix); try lia.
  injection Heq as <-. exact Hpix.
Defined.

(** ** Construction *)

Lemma CameraModel_eqb_eq (a b : CameraModel) : CameraModel_eqb a b = true <-> a = b.
Proof.
  destruct a, b; simpl; split; try congruence; try discriminate.
  - intros H. apply String.eqb_eq in H. congruence.
  - intros H. injection H as ->. apply String.eqb_refl.
Qed.

Lemma calibrations_differ_true (left right : Calibration) :
  calibrations_differ left right = true
  <-> (image_width left <> image_width right
       \/ image_height left <> image_height right
       \/ camera_model left <> camera_model right).
Proof.
  unfold calibrations_differ.
  rewrite !orb_true_iff, !negb_true_iff, !Z.eqb_neq.
  assert (Hm : CameraModel_eqb (camera_model left) (camera_model right) = false
               <-> camera_model left <> camera_model right).
  { rewrite <- CameraModel_eqb_eq.
    destruct (CameraModel_eqb _ _); split; congruence. }
  rewrite Hm. tauto.
Qed.

Lemma calibrations_differ_false (left right : Calibration) :
  calibrations_differ left right = false
  <-> (image_width left = image_width right
       /\ image_height left = image_height right
       /\ camera_model left = camera_model right).
Proof.
  unfold calibrations_differ.
  rewrite !orb_false_iff, !negb_false_iff, !Z.eqb_eq, CameraModel_eqb_eq. tauto.
Qed.

(** What [init_stereo_params] does, model by model: it derives the relative
    pose, hands it to the rectification of the model, and returns the
    instance when that returns. *)
Lemma init_stereo_params_outcome (L : Libs) (left right : Calibration)
    (size : Z * Z) (model : CameraModel) :
  let R_left := fst (Rodrigues L (rvec left)) in
  let R_right := fst (Rodrigues L (rvec right)) in
  let R' := matmul (linalg_inv L R_left) R_right in
  let T' := vsub (matvec (transpose R_left) (tvec right))
                 (matvec (transpose R_left) (tvec left)) in
  let instance (self : StereoProcessor) (stored : StereoParams) :=
    init_stereo_params L left right size model = inr self
    /\ calibration_left self = left
    /\ calibration_right self = right
    /\ image_size self = size
    /\ self_camera_model self = model
    /\ R self = R'
    /\ T self = T'
    /\ params self = stored in
  match model with
  | OpenCV =>
      match stereoRectify L (cameraMatrix left) (distCoeffs left)
              (cameraMatrix right) (distCoeffs right) size
              (fst (Rodrigues_matrix L R')) T' CALIB_ZERO_DISPARITY (of_Z (-1)) with
      | inl msg => init_stereo_params L left right size model = inl (cv2_error msg)
      | inr rectified =>
          exists self, instance self (StereoParams_of_rectification rectified)
      end
  | OpenCVFisheye =>
      match fisheye_stereoRectify L (cameraMatrix left) (distCoeffs left)
              (cameraMatrix right) (distCoeffs right) size
              (fst (Rodrigues_matrix L R')) T' CALIB_ZERO_DISPARITY with
      | inl msg => init_stereo_params L left right size model = inl (cv2_error msg)
      | inr rectified =>
          exists self, instance self (StereoParams_of_fisheye rectified)
      end
  | OtherModel _ =>
      init_stereo_params L left right size model
      = inl (NotImplementedError (unsupported_msg model))
  end.
Proof.
  unfold init_stereo_params, init_opencv_model_params, init_opencvfisheye_model_params.
  cbv zeta. destruct model; [| |reflexivity].
  - destruct (stereoRectify L _ _ _ _ _ _ _ _ _) as [msg|rectified];
      cbn [cv2_call bind raise ret]; [reflexivity|].
    destruct (initUndistortRectifyMap L (cameraMatrix left) _ _ _ _ _) as [l1 l2].
    destruct (initUndistortRectifyMap L (cameraMatrix right) _ _ _ _ _) as [r1' r2'].
    eexists. repeat split.
  - destruct (fisheye_stereoRectify L _ _ _ _ _ _ _ _) as [msg|rectified];
      cbn [cv2_call bind raise ret]; [reflexivity|].
    destruct (fisheye_initUndistortRectifyMap L (cameraMatrix left) _ _ _ _ _)
      as [l1 l2].
    destruct (fisheye_initUndistortRectifyMap L (cameraMatrix right) _ _ _ _ _)
      as [r1' r2'].
    eexists. repeat split.
Qed.

(** The attributes of the instance [init_stereo_params] returns. *)
Lemma init_stereo_params_instance (L : Libs) (left right : Calibration)
    (size : Z * Z) (model : CameraModel) (self : StereoProcessor) :
  init_stereo_params L left right size model = inr self ->
  calibration_left self = left
  /\ calibration_right self = right
  /\ image_size self = size
  /\ self_camera_model self = model
  /\ (model = OpenCV \/ model = OpenCVFisheye)
  /\ (model = OpenCV ->
      exists x y w h, StereoParams.validROI1 (params self) = Some [x; y; w; h])
  /\ (model = OpenCVFisheye -> StereoParams.validROI1 (params self) = None)
  /\ T self = vsub (matvec (transpose (fst (Rodrigues L (rvec left)))) (tvec right))
                   (matvec (transpose (fst (Rodrigues L (rvec left)))) (tvec left)).
Proof.
  intros E.
  pose proof (init_stereo_params_outcome L left right size model) as H.
  cbv zeta in H. rewrite E in H.
  destruct model;
    repeat match type of H with
           | match ?c with _ => _ end => destruct c
           end;
    try discriminate;
    destruct H as (self' & Hs & Hl & Hr & Hsize & Hmodel & _ & HT & Hp);
    injection Hs as <-; repeat split; auto; try discriminate; intros _.
  - rewrite Hp. cbn. destruct (rect_roi1 _) as [[[x y] w] h].
    exists x, y, w, h. reflexivity.
  - rewrite Hp. reflexivity.
Qed.

Lemma init_stereo_params_not_ValueError (L : Libs) (left right : Calibration)
    (size : Z * Z) (model : CameraModel) (msg : string) :
  init_stereo_params L left right size model <> inl (ValueError msg).
Proof.
  pose proof (init_stereo_params_outcome L left right size model) as H.
  cbv zeta in H. intros E. rewrite E in H.
  destruct model;
    repeat match type of H with
           | match ?c with _ => _ end => destruct c
           end;
    try discriminate; destruct H as (self & H & _); discriminate.
Qed.

(** C4.  [__init__] raises its [ValueError] ("Camera calibration image sizes
    or models don't match", the specification's ConfigMismatchError) exactly
    when the two records disagree on [image_width], [image_height] or
    [camera_model]; it is raised by the constructor, before anything is
    derived.  When they agree on all three the check passes and construction
    goes on with [init_stereo_params]. *)
Theorem mismatched_calibrations_rejected (L : Libs) (left right : Calibration) :
  ((image_width left <> image_width right
    \/ image_height left <> image_height right
    \/ camera_model left <> camera_model right)
   <-> __init__ L left right = inl (ValueError mismatch_msg))
  /\ ((image_width left = image_width right
       /\ image_height left = image_height right
       /\ camera_model left = camera_model right)
      <-> __init__ L left right
          = init_stereo_params L left right
              (image_width left, image_height left) (camera_model left)).
Proof.
  rewrite <- calibrations_differ_true, <- calibrations_differ_false.
  unfold __init__. destruct (calibrations_differ left right); split; split;
    try reflexivity; try discriminate; intros H; exfalso.
  - symmetry in H. exact (init_stereo_params_not_ValueError _ _ _ _ _ _ H).
  - exact (init_stereo_params_not_ValueError _ _ _ _ _ _ H).
Qed.

(** C5, as the code has it.  For a pair that agrees on [image_width],
    [image_height] and [camera_model], with a model that is neither
    [OpenCV] nor [OpenCVFisheye], [__init__] raises [NotImplementedError]
    (the specification's UnsupportedModelError) with a message that names the
    model; no instance is returned, and no other model is tried. *)
Theorem unsupported_model_rejected (L : Libs) (left right : Calibration) :
  image_width left = image_width right ->
  image_height left = image_height right ->
  camera_model left = camera_model right ->
  camera_model left <> OpenCV ->
  camera_model left <> OpenCVFisheye ->
  __init__ L left right
  = inl (NotImplementedError
           (String.append "Camera model "
              (String.append (CameraModel_str (camera_model left))
                 " not supported (yet!)"))).
Proof.
  intros Hw Hh Hm H1 H2. unfold __init__.
  rewrite (proj2 (calibrations_differ_false left right)) by auto.
  unfold init_stereo_params. destruct (camera_model left); try congruence.
  reflexivity.
Qed.

Lemma unsupported_model_rejected_witness :
  let left := sample_camera 0 640 (OtherModel "Spherical") in
  let right := sample_camera 100 640 (OtherModel "Spherical") in
  __init__ sample_libs left right
  = inl (NotImplementedError "Camera model CameraModel.Spherical not supported (yet!)").
Proof.
  cbv zeta.
  apply (unsupported_model_rejected sample_libs
           (sample_camera 0 640 (OtherModel "Spherical"))
           (sample_camera 100 640 (OtherModel "Spherical")));
    try reflexivity; discriminate.
Defined.

(** C5, as the claim has it, fails for a pair that shares an unsupported
    model and differs in the image width: the size check comes first, and
    the error is the one of a mismatch. *)
Lemma unsupported_model_with_size_mismatch :
  let left := sample_camera 0 640 (OtherModel "Spherical") in
  let right := sample_camera 100 1280 (OtherModel "Spherical") in
  camera_model left = camera_model right
  /\ camera_model left <> OpenCV
  /\ camera_model left <> OpenCVFisheye
  /\ __init__ sample_libs left right = inl (ValueError mismatch_msg)
  /\ forall msg, __init__ sample_libs left right <> inl (NotImplementedError msg).
Proof. cbv zeta. repeat split; try reflexivity; discriminate. Qed.

(** The products of the derivation, entry by entry. *)
Lemma matmul_entry (a b : mat33) (i k : nat) :
  (i < 3)%nat -> (k < 3)%nat ->
  entry (matmul a b) i k
  = (entry a i 0 * entry b 0 k + entry a i 1 * entry b 1 k
     + entry a i 2 * entry b 2 k)%sc.
Proof.
  intros Hi Hk.
  destruct i as [|[|[|i]]]; [| | |lia];
    (destruct k as [|[|[|k]]]; [| | |lia]); reflexivity.
Qed.

Lemma matvec_transpose_coord (a : mat33) (t : vec3) (i : nat) :
  (i < 3)%nat ->
  coord (matvec (transpose a) t) i
  = (entry a 0 i * coord t 0 + entry a 1 i * coord t 1 + entry a 2 i * coord t 2)%sc.
Proof.
  intros Hi. destruct i as [|[|[|i]]]; [| | |lia]; reflexivity.
Qed.

Lemma vsub_coord (a b : vec3) (i : nat) :
  coord (vsub a b) i = (coord a i - coord b i)%sc.
Proof. destruct i as [|[|i]]; reflexivity. Qed.

(** C1.  For a pair of calibration records that [__init__] accepts (same
    size, same model, a model the module supports), construction derives the
    relative pose [R = inv(R_left) . R_right] and
    [T = R_left^T . tvec_right - R_left^T . tvec_left], where [R_left] and
    [R_right] are the rotation matrices [cv2.Rodrigues] gives for the two
    rotation vectors.  The two matrix products are the usual ones, entry by
    entry, and the transpose swaps the indices of [R_left].  Every instance
    the constructor returns has this pose.  The pose is what construction
    hands to the rectification of the model: construction returns an
    instance when that call returns, and lets its [cv2.error] through when
    it raises. *)
Theorem relative_pose_at_construction (L : Libs) (left right : Calibration) :
  image_width left = image_width right ->
  image_height left = image_height right ->
  camera_model left = camera_model right ->
  camera_model left = OpenCV \/ camera_model left = OpenCVFisheye ->
  let R_left := fst (Rodrigues L (rvec left)) in
  let R_right := fst (Rodrigues L (rvec right)) in
  let inv_left := linalg_inv L R_left in
  let R' := matmul inv_left R_right in
  let T' := vsub (matvec (transpose R_left) (tvec right))
                 (matvec (transpose R_left) (tvec left)) in
  let size := (image_width left, image_height left) in
  (forall i k, (i < 3)%nat -> (k < 3)%nat ->
     entry R' i k
     = (entry inv_left i 0 * entry R_right 0 k
        + entry inv_left i 1 * entry R_right 1 k
        + entry inv_left i 2 * entry R_right 2 k)%sc)
  /\ (forall i, (i < 3)%nat ->
        coord T' i
        = ((entry R_left 0 i * coord (tvec right) 0
            + entry R_left 1 i * coord (tvec right) 1
            + entry R_left 2 i * coord (tvec right) 2)
           - (entry R_left 0 i * coord (tvec left) 0
              + entry R_left 1 i * coord (tvec left) 1
              + entry R_left 2 i * coord (tvec left) 2))%sc)
  /\ (forall self,
        __init__ L left right = inr self ->
        calibration_left self = left
        /\ calibration_right self = right
        /\ R self = R'
        /\ T self = T')
  /\ (camera_model left = OpenCV ->
      match stereoRectify L (cameraMatrix left) (distCoeffs left)
              (cameraMatrix right) (distCoeffs right) size
              (fst (Rodrigues_matrix L R')) T' CALIB_ZERO_DISPARITY (of_Z (-1)) with
      | inl msg => __init__ L left right = inl (cv2_error msg)
      | inr _ => exists self, __init__ L left right = inr self
      end)
  /\ (camera_model left = OpenCVFisheye ->
      match fisheye_stereoRectify L (cameraMatrix left) (distCoeffs left)
              (cameraMatrix right) (distCoeffs right) size
              (fst (Rodrigues_matrix L R')) T' CALIB_ZERO_DISPARITY with
      | inl msg => __init__ L left right = inl (cv2_error msg)
      | inr _ => exists self, __init__ L left right = inr self
      end).
Proof.
  intros Hw Hh Hm Hmodel. cbv zeta.
  assert (Hinit : __init__ L left right
                  = init_stereo_params L left right
                      (image_width left, image_height left) (camera_model left)).
  { unfold __init__.
    rewrite (proj2 (calibrations_differ_false left right)) by auto. reflexivity. }
  pose proof (init_stereo_params_outcome L left right
                (image_width left, image_height left) (camera_model left)) as Hout.
  cbv zeta in Hout. rewrite <- Hinit in Hout.
  split; [intros i k Hi Hk; apply matmul_entry; assumption|].
  split.
  { intros i Hi. rewrite vsub_coord, !matvec_transpose_coord by assumption.
    reflexivity. }
  split.
  { intros self Hself. rewrite Hself in Hout.
    destruct Hmodel as [E|E]; rewrite E in Hout;
      match type of Hout with
      | match ?c with _ => _ end => destruct c
      end;
      try discriminate;
      destruct Hout as (self' & Hs & Hl & Hr & _ & _ & HR & HT & _);
      injection Hs as <-; auto. }
  split; intros E; rewrite E in Hout;
    match type of Hout with
    | match ?c with _ => _ end => destruct c
    end;
    try exact Hout; destruct Hout as (self & Hs & _); exists self; exact Hs.
Qed.

(** The theorem at two cameras turned against each other, by quarter turns
    that do not commute, and neither of them at the origin: the product of
    the rotations in the other order, or the rotation without its transpose,
    would give another pose. *)
Lemma relative_pose_at_construction_witness :
  exists self,
    __init__ sample_libs turned_left turned_right = inr self
    /\ R self = M33 (V3 zero zero (of_Z (-1)))
                    (V3 (of_Z (-1)) zero zero)
                    (V3 zero one zero)
    /\ T self = V3 zero (of_Z (-100)) zero.
Proof.
  destruct (__init__ sample_libs turned_left turned_right) as [e|self] eqn:Hinit;
    [discriminate|].
  exists self. split; [reflexivity|].
  destruct (relative_pose_at_construction sample_libs turned_left turned_right
              eq_refl eq_refl eq_refl (or_introl eq_refl))
    as (_ & _ & Hpose & _).
  destruct (Hpose self Hinit) as (_ & _ & HR & HT).
  rewrite HR, HT. split; reflexivity.
Defined.

(** The theorem at a pair that differs in the image width, and at a pair
    that agrees. *)
Lemma mismatched_calibrations_rejected_witness :
  __init__ sample_libs sample_left (sample_camera 100 1280 OpenCV)
  = inl (ValueError mismatch_msg)
  /\ __init__ sample_libs sample_left sample_right
     = init_stereo_params sample_libs sample_left sample_right (640, 480) OpenCV.
Proof.
  split.
  - apply (mismatched_calibrations_rejected sample_libs sample_left
             (sample_camera 100 1280 OpenCV)).
    left. discriminate.
  - apply (mismatched_calibrations_rejected sample_libs sample_left sample_right).
    repeat split.
Defined.

(** ** Depth and 3-D points *)

Lemma init_stereo_params_attributes (L : Libs) (left right : Calibration)
    (size : Z * Z) (model : CameraModel) (self : StereoProcessor) :
  init_stereo_params L left right size model = inr self ->
  calibration_left self = left
  /\ calibration_right self = right
  /\ T self = vsub (matvec (transpose (fst (Rodrigues L (rvec left)))) (tvec right))
                   (matvec (transpose (fst (Rodrigues L (rvec left)))) (tvec left)).
Proof.
  intros H. apply init_stereo_params_instance in H. tauto.
Qed.

(** C2.  For the instance constructed from [left] and [right] and every
    disparity value [d], [disparity_to_depth_mm] returns
    [baseline_mm * focallength_px / (d + doffs)] with [doffs = 0], where
    [focallength_px] is fx of the left camera ([cameraMatrix[0, 0]]) and
    [baseline_mm] is [np.linalg.norm(T)], the square root of the sum of the
    squares of the components of the derived translation
    [T = R_left^T . tvec_right - R_left^T . tvec_left]. *)
Theorem disparity_to_depth_mm_formula (L : Libs) (left right : Calibration)
    (self : StereoProcessor) (d : scalar) :
  __init__ L left right = inr self ->
  let R_left := fst (Rodrigues L (rvec left)) in
  let doffs := of_Z 0 in
  T self = vsub (matvec (transpose R_left) (tvec right))
                (matvec (transpose R_left) (tvec left))
  /\ baseline_mm L self
     = sqrt L (v0 (T self) * v0 (T self) + v1 (T self) * v1 (T self)
               + v2 (T self) * v2 (T self))%sc
  /\ disparity_to_depth_mm L self d
     = (baseline_mm L self * v0 (row0 (cameraMatrix left)) / (d + doffs))%sc.
Proof.
  unfold __init__. destruct (calibrations_differ left right); [discriminate|].
  intros H. apply init_stereo_params_attributes in H. destruct H as (Hl & _ & HT).
  cbv zeta. split; [exact HT|]. split; [reflexivity|].
  unfold disparity_to_depth_mm, baseline_mm, focallength_px, fx. rewrite Hl.
  reflexivity.
Qed.

(** The theorem at two unrotated cameras 100 mm apart along x, with a focal
    length of 1000 px: the baseline is 100 mm, and a disparity of 50 px is a
    depth of 2000 mm. *)
Lemma disparity_to_depth_mm_formula_witness :
  exists self,
    __init__ sample_libs sample_left sample_right = inr self
    /\ baseline_mm sample_libs self = of_Z 100
    /\ disparity_to_depth_mm sample_libs self (of_Z 50) = of_Z 2000.
Proof.
  destruct (__init__ sample_libs sample_left sample_right) as [e|self] eqn:Hinit;
    [discriminate|].
  exists self. split; [reflexivity|].
  destruct (disparity_to_depth_mm_formula sample_libs sample_left sample_right
              self (of_Z 50) Hinit) as (HT & Hb & Hd).
  rewrite Hd, Hb, HT. split; reflexivity.
Defined.

(** *** [points_px_to_3d_world_space] *)

Lemma length_rows3 (l : list scalar) (n : nat) :
  length l = (3 * n)%nat -> length (rows3 l) = n.
Proof.
  revert l. induction n as [|n IH]; intros l Hl.
  - destruct l; [reflexivity | discriminate].
  - destruct l as [|u [|v [|d l]]]; simpl in Hl; try lia.
    simpl. f_equal. apply IH. lia.
Qed.

Lemma concat_rows3 (l : list scalar) (n : nat) :
  length l = (3 * n)%nat -> concat (rows3 l) = l.
Proof.
  revert l. induction n as [|n IH]; intros l Hl.
  - destruct l; [reflexivity | discriminate].
  - destruct l as [|u [|v [|d l]]]; simpl in Hl; try lia.
    simpl. do 3 f_equal. apply IH. lia.
Qed.

(** Row [i] of the input holds the elements [3i], [3i+1] and [3i+2]. *)
Lemma nth_error_rows3 (l : list scalar) (i : nat) (u v d : scalar) :
  nth_error l (3 * i) = Some u ->
  nth_error l (3 * i + 1) = Some v ->
  nth_error l (3 * i + 2) = Some d ->
  nth_error (rows3 l) i = Some [u; v; d].
Proof.
  revert l. induction i as [|i IH]; intros l Hu Hv Hd.
  - destruct l as [|u' [|v' [|d' l]]]; simpl in *; congruence.
  - destruct l as [|u' [|v' [|d' l]]]; simpl in *; try discriminate.
    + replace (i + S (i + S (i + 0)))%nat with (S (S (3 * i))) in Hu by lia.
      simpl in Hu. destruct (3 * i)%nat; discriminate.
    + replace (i + S (i + S (i + 0)) + 1)%nat with (S (S (3 * i + 1))) in Hv by lia.
      simpl in Hv. destruct (3 * i + 1)%nat; discriminate.
    + apply IH.
      * replace (i + S (i + S (i + 0)))%nat with (S (S (3 * i))) in Hu by lia.
        exact Hu.
      * replace (i + S (i + S (i + 0)) + 1)%nat with (S (S (3 * i + 1))) in Hv by lia.
        exact Hv.
      * replace (i + S (i + S (i + 0)) + 2)%nat with (S (S (3 * i + 2))) in Hd by lia.
        exact Hd.
Qed.

(** The function on an input that marshals to an array [a]: [reshape]
    raises when the number of elements is not a multiple of 3; otherwise the
    elements are cast to [np.float32] and read three by three, in order, and
    each row gives one row of the result, which is cast again.  The test on
    [shape[1]] never raises. *)
Lemma points_px_to_3d_world_space_rows (L : Libs) (self : StereoProcessor)
    (points : points_px) (a : ndarray) :
  _marshal_point_to_array L points = inr a ->
  points_px_to_3d_world_space L self points
  = if (length (data a) mod 3 =? 0)%nat
    then inr (astype_float32 L
                (array_of_rows (map (project_point L self)
                                    (rows3 (map (float32 L) (data a))))))
    else inl (ValueError (cannot_reshape (length (data a)))).
Proof.
  intros Hm. unfold points_px_to_3d_world_space. rewrite Hm. cbn [bind].
  unfold reshape_m1_1_3. destruct (_ =? _)%nat; reflexivity.
Qed.

Lemma array_of_rows_nonempty (rows : list (list scalar)) :
  rows <> [] -> array_of_rows rows = mk_ndarray [length rows; 3%nat] (concat rows).
Proof. destruct rows; [congruence | reflexivity]. Qed.

Lemma rows3_of_projected (L : Libs) (self : StereoProcessor) (rows : list (list scalar)) :
  rows3 (concat (map (project_point L self) rows)) = map (project_point L self) rows.
Proof.
  induction rows as [|r rows IH]; [reflexivity|].
  cbn [map concat]. unfold project_point at 1. cbn [app rows3]. f_equal. exact IH.
Qed.

Lemma rows3_of_cast_projected (L : Libs) (self : StereoProcessor)
    (rows : list (list scalar)) :
  rows3 (map (float32 L) (concat (map (project_point L self) rows)))
  = map (fun row => map (float32 L) (project_point L self row)) rows.
Proof.
  induction rows as [|r rows IH]; [reflexivity|].
  cbn [map concat]. unfold project_point at 1. cbn [app map rows3].
  f_equal. exact IH.
Qed.

(** X14.  For an input that marshals to an array of [3 n] elements with
    [n >= 1], whatever its shape, the result has shape [(n, 3)] and one row
    per three elements of the input, in the order of the input: row [i] is
    the cast to [np.float32] of what the loop computes from the elements
    [3i], [3i+1] and [3i+2], themselves cast to [np.float32]. *)
Lemma points_px_to_3d_world_space_shape (L : Libs) (self : StereoProcessor)
    (points : points_px) (a : ndarray) (n : nat) :
  _marshal_point_to_array L points = inr a ->
  length (data a) = (3 * n)%nat -> (0 < n)%nat ->
  exists out,
    points_px_to_3d_world_space L self points = inr out
    /\ shape out = [n; 3%nat]
    /\ rows3 (data out)
       = map (fun row => map (float32 L) (project_point L self row))
             (rows3 (map (float32 L) (data a))).
Proof.
  intros Hm Hlen Hn. rewrite (points_px_to_3d_world_space_rows L self points a Hm).
  replace (length (data a) mod 3)%nat with 0%nat
    by (rewrite Hlen, Nat.mul_comm, Nat.Div0.mod_mul; reflexivity).
  cbn [Nat.eqb]. eexists. split; [reflexivity|].
  assert (Hlen' : length (map (float32 L) (data a)) = (3 * n)%nat)
    by (rewrite length_map; exact Hlen).
  pose proof (length_rows3 _ n Hlen') as Hrows.
  rewrite array_of_rows_nonempty.
  - unfold astype_float32. cbn [shape data].
    rewrite length_map, Hrows, rows3_of_cast_projected. auto.
  - intro E. apply (f_equal (@length _)) in E. rewrite length_map, Hrows in E.
    simpl in E. lia.
Qed.

(** X16.  The test on [shape[1]] comes after [reshape(-1, 1, 3)], which has
    already made the second dimension 3: its error, "Points input array must
    be Nx3 array", is never raised, whatever the input. *)
Lemma points_px_shape_test_never_raises (L : Libs) (self : StereoProcessor)
    (points : points_px) :
  points_px_to_3d_world_space L self points <> inl (ValueError points_msg).
Proof.
  unfold points_px_to_3d_world_space.
  destruct (_marshal_point_to_array L points) as [e|a] eqn:Hm; cbn [bind].
  - destruct points as [a|items|items]; simpl in Hm; try discriminate;
      destruct (stack _); try discriminate; injection Hm as <-; discriminate.
  - unfold reshape_m1_1_3. destruct (_ =? _)%nat; cbn [bind]; discriminate.
Qed.

(** So a 3x2 array is not rejected: its six elements are read as two
    points. *)
Example points_px_to_3d_world_space_regroups :
  let rows := [Seq [Num (of_Z 420); Num (of_Z 240)];
               Seq [Num (of_Z 50); Num (of_Z 320)];
               Seq [Num (of_Z 140); Num (of_Z 25)]] in
  np_array (Seq rows)
  = Some (mk_ndarray [3%nat; 2%nat]
            [of_Z 420; of_Z 240; of_Z 50; of_Z 320; of_Z 140; of_Z 25])
  /\ points_px_to_3d_world_space sample_libs (sample_processor None) (PxList rows)
     = inr (mk_ndarray [2%nat; 3%nat]
              [of_Z 200; zero; of_Z 2000; zero; of_Z (-400); of_Z 4000]).
Proof. cbv zeta. split; vm_compute; reflexivity. Qed.

(** C3 at the empty list of points: the call succeeds, and [np.array] of the
    empty list of rows is an array of shape [(0,)], not [(0, 3)].  The same
    holds for an empty array of shape [(0, 3)]. *)
Theorem points_px_to_3d_world_space_of_no_point (L : Libs) (self : StereoProcessor) :
  points_px_to_3d_world_space L self (PxList []) = inr (mk_ndarray [0%nat] [])
  /\ points_px_to_3d_world_space L self (PxArray (mk_ndarray [0%nat; 3%nat] []))
     = inr (mk_ndarray [0%nat] []).
Proof. split; reflexivity. Qed.

(** * Further properties of the module *)

(** ** Region masks *)

(** Two arrays of one shape with the same pixels are the same array. *)
Lemma pixel_ext {A : Type} (a b : list (list A)) :
  map (@length A) a = map (@length A) b ->
  (forall r c, pixel a r c = pixel b r c) ->
  a = b.
Proof.
  intros Hshape Hpix. apply nth_error_ext. intros r.
  pose proof (f_equal (fun l => nth_error l r) Hshape) as Hr. simpl in Hr.
  rewrite !nth_error_map in Hr.
  specialize (Hpix r). unfold pixel in Hpix.
  destruct (nth_error a r) as [ra|], (nth_error b r) as [rb|];
    simpl in Hr; try discriminate; [|reflexivity].
  f_equal. apply nth_error_ext. exact Hpix.
Qed.

Lemma shape_masked_image (x y w h : Z) (disparity : matrix) :
  map (@length scalar) (masked_image x y w h disparity)
  = map (@length scalar) disparity.
Proof.
  unfold masked_image. apply nth_error_ext. intros r.
  rewrite !nth_error_map, nth_error_masked_image.
  destruct (nth_error disparity r) as [row|]; simpl; [|reflexivity].
  destruct (in_slice _ r); [rewrite length_masked_row | rewrite length_map];
    reflexivity.
Qed.

Lemma length_masked_image (x y w h : Z) (disparity : matrix) :
  length (masked_image x y w h disparity) = length disparity.
Proof.
  pose proof (f_equal (@length nat) (shape_masked_image x y w h disparity)) as H.
  rewrite !length_map in H. exact H.
Qed.

(** The pixels of the masked image for any four integers, negative ones
    included: the row and column slices decide. *)
Lemma pixel_masked_image (x y w h : Z) (disparity : matrix) (r c : nat) :
  pixel (masked_image x y w h disparity) r c
  = match nth_error disparity r with
    | Some row =>
        if in_slice (py_slice (length disparity) y (y + h)) r
           && in_slice (py_slice (length row) x (x + w)) c
        then nth_error row c
        else option_map (fun _ => zero) (nth_error row c)
    | None => None
    end.
Proof.
  unfold pixel, masked_image. rewrite nth_error_masked_image.
  destruct (nth_error disparity r) as [row|]; simpl; [|reflexivity].
  destruct (in_slice (py_slice (length disparity) y (y + h)) r); simpl.
  - apply nth_error_masked_row.
  - apply nth_error_map.
Qed.

Lemma apply_roi_to_disparity_masked (self : StereoProcessor) (disparity : matrix)
    (x y w h : Z) :
  StereoParams.validROI1 (params self) = Some [x; y; w; h] ->
  apply_roi_to_disparity self disparity = inr (masked_image x y w h disparity).
Proof. intros H. unfold apply_roi_to_disparity. rewrite H. reflexivity. Qed.

(** X1.  With a stored region of four integers, whatever their signs and
    sizes, [apply_roi_to_disparity] does not raise: it returns an array of
    the shape of the input in which every pixel is the pixel of the input or
    0.  (A region that reaches beyond the image is clipped; a negative
    component is read as Python reads a negative slice bound.) *)
Theorem apply_roi_to_disparity_keeps_or_zeroes (self : StereoProcessor)
    (disparity : matrix) (x y w h : Z) :
  StereoParams.validROI1 (params self) = Some [x; y; w; h] ->
  exists masked,
    apply_roi_to_disparity self disparity = inr masked
    /\ map (@length scalar) masked = map (@length scalar) disparity
    /\ forall r c v,
         pixel disparity r c = Some v ->
         pixel masked r c = Some v \/ pixel masked r c = Some zero.
Proof.
  intros Hroi. exists (masked_image x y w h disparity).
  split; [apply apply_roi_to_disparity_masked; exact Hroi|].
  split; [apply shape_masked_image|].
  intros r c v Hv. rewrite pixel_masked_image. unfold pixel in Hv.
  destruct (nth_error disparity r) as [row|]; [|discriminate].
  rewrite Hv. destruct (_ && _); simpl; auto.
Qed.

Lemma apply_roi_to_disparity_keeps_or_zeroes_witness :
  let self := sample_processor (Some [-1; 0; 5; 7]) in
  let disparity := [[of_Z 1; of_Z 2; of_Z 3]; [of_Z 4; of_Z 5; of_Z 6]] in
  apply_roi_to_disparity self disparity
  = inr [[zero; zero; of_Z 3]; [zero; zero; of_Z 6]]
  /\ forall r c v,
       pixel disparity r c = Some v ->
       pixel [[zero; zero; of_Z 3]; [zero; zero; of_Z 6]] r c = Some v
       \/ pixel [[zero; zero; of_Z 3]; [zero; zero; of_Z 6]] r c = Some zero.
Proof.
  cbv zeta. split; [reflexivity|].
  destruct (apply_roi_to_disparity_keeps_or_zeroes
              (sample_processor (Some [-1; 0; 5; 7]))
              [[of_Z 1; of_Z 2; of_Z 3]; [of_Z 4; of_Z 5; of_Z 6]] (-1) 0 5 7 eq_refl)
    as (masked & Heq & _ & Hpix).
  injection Heq as <-. exact Hpix.
Defined.

(** X2.  Masking is idempotent: masking the result again with the same
    stored region returns the result. *)
Theorem apply_roi_to_disparity_idempotent (self : StereoProcessor)
    (disparity masked : matrix) :
  apply_roi_to_disparity self disparity = inr masked ->
  apply_roi_to_disparity self masked = inr masked.
Proof.
  unfold apply_roi_to_disparity.
  destruct (StereoParams.validROI1 (params self)) as [roi|]; [|discriminate].
  destruct roi as [|x [|y [|w [|h [|k roi]]]]]; try discriminate.
  intros H. injection H as <-. fold (masked_image x y w h disparity).
  fold (masked_image x y w h (masked_image x y w h disparity)).
  unfold ret. apply (f_equal (@inr exn matrix)). apply pixel_ext.
  - apply shape_masked_image.
  - intros r c. rewrite (pixel_masked_image x y w h (masked_image _ _ _ _ _)).
    rewrite length_masked_image.
    pose proof (pixel_masked_image x y w h disparity r c) as Hp.
    unfold pixel in Hp at 1. unfold pixel at 1.
    pose proof (f_equal (fun l => nth_error l r)
                  (shape_masked_image x y w h disparity)) as Hlen.
    simpl in Hlen. rewrite !nth_error_map in Hlen.
    destruct (nth_error (masked_image x y w h disparity) r) as [mrow|],
             (nth_error disparity r) as [row|]; simpl in Hlen; try discriminate;
      [|reflexivity].
    injection Hlen as Hlen. rewrite Hlen, Hp.
    destruct (_ && _); [reflexivity|].
    destruct (nth_error row c); reflexivity.
Qed.

Lemma apply_roi_to_disparity_idempotent_witness :
  let self := sample_processor (Some [1; 0; 2; 1]) in
  let masked := [[zero; of_Z 2; of_Z 3; zero]; [zero; zero; zero; zero]] in
  apply_roi_to_disparity self
    [[of_Z 1; of_Z 2; of_Z 3; of_Z 4]; [of_Z 5; of_Z 6; of_Z 7; of_Z 8]]
  = inr masked
  /\ apply_roi_to_disparity self masked = inr masked.
Proof.
  cbv zeta. split; [reflexivity|].
  apply (apply_roi_to_disparity_idempotent (sample_processor (Some [1; 0; 2; 1]))
           [[of_Z 1; of_Z 2; of_Z 3; of_Z 4]; [of_Z 5; of_Z 6; of_Z 7; of_Z 8]]).
  reflexivity.
Defined.

Lemma in_slice_empty (len : nat) (start : Z) (i : nat) :
  in_slice (py_slice len start (start + 0)) i = false.
Proof.
  unfold in_slice, py_slice. rewrite Z.add_0_r, Z.max_id. simpl.
  destruct (Z.to_nat (slice_bound len start) <=? i)%nat eqn:E; [|reflexivity].
  apply Nat.leb_le in E. apply Nat.ltb_ge. exact E.
Qed.

Lemma in_slice_cover (len : nat) (width : Z) (i : nat) :
  Z.of_nat len <= width -> (i < len)%nat ->
  in_slice (py_slice len 0 (0 + width)) i = true.
Proof.
  intros Hw Hi. unfold in_slice.
  rewrite (py_slice_nonneg len 0 width i) by lia.
  apply andb_true_iff. split; [apply Z.leb_le | apply Z.ltb_lt]; lia.
Qed.

Lemma pixel_zeros_like (disparity : matrix) (r c : nat) :
  pixel (zeros_like disparity) r c
  = option_map (fun _ => zero) (pixel disparity r c).
Proof.
  unfold pixel, zeros_like, map2d. rewrite nth_error_map.
  destruct (nth_error disparity r) as [row|]; simpl; [|reflexivity].
  apply nth_error_map.
Qed.

Lemma shape_zeros_like (disparity : matrix) :
  map (@length scalar) (zeros_like disparity) = map (@length scalar) disparity.
Proof.
  unfold zeros_like, map2d. rewrite map_map. apply map_ext. intros row.
  apply length_map.
Qed.

(** X3.  A stored region [(0, 0, w, h)] that covers the whole map (the
    region of a rig that needs no cropping) leaves the map as it is. *)
Theorem apply_roi_to_disparity_covering_region (self : StereoProcessor)
    (disparity : matrix) (w h : Z) :
  StereoParams.validROI1 (params self) = Some [0; 0; w; h] ->
  Z.of_nat (length disparity) <= h ->
  (forall row, In row disparity -> Z.of_nat (length row) <= w) ->
  apply_roi_to_disparity self disparity = inr disparity.
Proof.
  intros Hroi Hh Hw. rewrite (apply_roi_to_disparity_masked _ _ _ _ _ _ Hroi).
  apply (f_equal (@inr exn matrix)). apply pixel_ext.
  - apply shape_masked_image.
  - intros r c. rewrite pixel_masked_image. unfold pixel.
    destruct (nth_error disparity r) as [row|] eqn:Hrow; [|reflexivity].
    assert (Hr : (r < length disparity)%nat) by (apply nth_error_Some; congruence).
    rewrite (in_slice_cover _ _ _ Hh Hr), andb_true_l.
    destruct (Nat.lt_ge_cases c (length row)) as [Hc|Hc].
    + rewrite in_slice_cover; [reflexivity | | exact Hc].
      apply Hw. eapply nth_error_In. exact Hrow.
    + apply nth_error_None in Hc. rewrite Hc. destruct (in_slice _ c); reflexivity.
Qed.

Lemma apply_roi_to_disparity_covering_region_witness :
  let disparity := [[of_Z 1; of_Z 2; of_Z 3]; [of_Z 4; of_Z 5; of_Z 6]] in
  apply_roi_to_disparity (sample_processor (Some [0; 0; 640; 480])) disparity
  = inr disparity.
Proof.
  cbv zeta.
  apply (apply_roi_to_disparity_covering_region
           (sample_processor (Some [0; 0; 640; 480])) _ 640 480 eq_refl).
  - simpl. lia.
  - intros row Hrow. simpl in Hrow.
    destruct Hrow as [<-|[<-|[]]]; simpl; lia.
Defined.

(** X4.  A stored region of width 0 or height 0 (OpenCV's [(0, 0, 0, 0)]
    when no pixel is valid) gives a map of zeros of the shape of the input. *)
Theorem apply_roi_to_disparity_empty_region (self : StereoProcessor)
    (disparity : matrix) (x y w h : Z) :
  StereoParams.validROI1 (params self) = Some [x; y; w; h] ->
  w = 0 \/ h = 0 ->
  apply_roi_to_disparity self disparity = inr (map2d (fun _ => zero) disparity).
Proof.
  intros Hroi Hwh. rewrite (apply_roi_to_disparity_masked _ _ _ _ _ _ Hroi).
  apply (f_equal (@inr exn matrix)). fold (zeros_like disparity). apply pixel_ext.
  - rewrite shape_masked_image, shape_zeros_like. reflexivity.
  - intros r c. rewrite pixel_masked_image, pixel_zeros_like. unfold pixel.
    destruct (nth_error disparity r) as [row|]; [|reflexivity].
    destruct Hwh as [-> | ->]; rewrite in_slice_empty;
      rewrite ?andb_false_r; reflexivity.
Qed.

Lemma apply_roi_to_disparity_empty_region_witness :
  apply_roi_to_disparity (sample_processor (Some [0; 0; 0; 0]))
    [[of_Z 1; of_Z 2; of_Z 3]; [of_Z 4; of_Z 5; of_Z 6]]
  = inr [[zero; zero; zero]; [zero; zero; zero]].
Proof.
  apply (apply_roi_to_disparity_empty_region (sample_processor (Some [0; 0; 0; 0]))
           [[of_Z 1; of_Z 2; of_Z 3]; [of_Z 4; of_Z 5; of_Z 6]] 0 0 0 0 eq_refl).
  left. reflexivity.
Defined.

(** ** Constructed instances *)

Lemma init_inr (L : Libs) (left right : Calibration) (self : StereoProcessor) :
  __init__ L left right = inr self ->
  calibrations_differ left right = false
  /\ init_stereo_params L left right (image_width left, image_height left)
       (camera_model left) = inr self.
Proof.
  unfold __init__. destruct (calibrations_differ left right); [discriminate|].
  auto.
Qed.

(** X5.  The outcomes of construction.  It returns an instance exactly when
    the two records agree on [image_width], [image_height] and
    [camera_model], the model is [OpenCV] or [OpenCVFisheye], and the
    rectification of that model, called with the derived pose, returns.  The
    instance keeps both records, and its [image_size] and [camera_model] are
    the ones of the left record.  The only errors are the [ValueError] of a
    mismatch, the [NotImplementedError] of a model that is not supported, and
    the [cv2.error] of the rectification. *)
Theorem construction_succeeds_iff (L : Libs) (left right : Calibration) :
  let R_left := fst (Rodrigues L (rvec left)) in
  let R' := matmul (linalg_inv L R_left) (fst (Rodrigues L (rvec right))) in
  let T' := vsub (matvec (transpose R_left) (tvec right))
                 (matvec (transpose R_left) (tvec left)) in
  let size := (image_width left, image_height left) in
  ((exists self, __init__ L left right = inr self)
   <-> (image_width left = image_width right
        /\ image_height left = image_height right
        /\ camera_model left = camera_model right
        /\ ((camera_model left = OpenCV
             /\ exists rectified,
                  stereoRectify L (cameraMatrix left) (distCoeffs left)
                    (cameraMatrix right) (distCoeffs right) size
                    (fst (Rodrigues_matrix L R')) T' CALIB_ZERO_DISPARITY (of_Z (-1))
                  = inr rectified)
            \/ (camera_model left = OpenCVFisheye
                /\ exists rectified,
                     fisheye_stereoRectify L (cameraMatrix left) (distCoeffs left)
                       (cameraMatrix right) (distCoeffs right) size
                       (fst (Rodrigues_matrix L R')) T' CALIB_ZERO_DISPARITY
                     = inr rectified))))
  /\ (forall self,
        __init__ L left right = inr self ->
        calibration_left self = left
        /\ calibration_right self = right
        /\ image_size self = (image_width left, image_height left)
        /\ self_camera_model self = camera_model left)
  /\ (forall e,
        __init__ L left right = inl e ->
        e = ValueError mismatch_msg
        \/ e = NotImplementedError (unsupported_msg (camera_model left))
        \/ exists msg, e = cv2_error msg).
Proof.
  cbv zeta.
  pose proof (init_stereo_params_outcome L left right
                (image_width left, image_height left) (camera_model left)) as Hout.
  cbv zeta in Hout.
  split; [split|split].
  - intros (self & H). apply init_inr in H. destruct H as [Hd H].
    apply calibrations_differ_false in Hd. destruct Hd as (Hw & Hh & Hm).
    repeat (split; [assumption|]).
    rewrite H in Hout.
    destruct (camera_model left); [left|right|discriminate]; (split; [reflexivity|]);
      match type of Hout with
      | match ?c with _ => _ end => destruct c as [msg|rectified]
      end;
      try discriminate; exists rectified; reflexivity.
  - intros (Hw & Hh & Hm & Hmodel). unfold __init__.
    rewrite (proj2 (calibrations_differ_false left right)) by auto.
    destruct Hmodel as [[E (rectified & Hr)]|[E (rectified & Hr)]];
      rewrite E in *; rewrite Hr in Hout;
      destruct Hout as (self & Hs & _); exists self; exact Hs.
  - intros self H. apply init_inr in H. destruct H as [_ H].
    apply init_stereo_params_instance in H. tauto.
  - intros e. unfold __init__.
    destruct (calibrations_differ left right); [intros H; injection H as <-; auto|].
    intros H. rewrite H in Hout. right.
    destruct (camera_model left);
      repeat match type of Hout with
             | match ?c with _ => _ end => destruct c as [msg|rectified]
             end;
      try (injection Hout as ->; eauto);
      destruct Hout as (self & Hs & _); discriminate.
Qed.

(** Two fisheye cameras 100 mm apart construct an instance; one camera given
    twice does not: it has no baseline, and the sample rectification raises
    as OpenCV's does. *)
Lemma construction_succeeds_iff_witness :
  (exists self, __init__ sample_libs sample_fisheye_left sample_fisheye_right = inr self)
  /\ ~ (exists self, __init__ sample_libs sample_left sample_left = inr self).
Proof.
  split.
  - apply (construction_succeeds_iff sample_libs sample_fisheye_left
             sample_fisheye_right).
    repeat split. right. split; [reflexivity|]. eexists. reflexivity.
  - intros H.
    apply (construction_succeeds_iff sample_libs sample_left sample_left) in H.
    destruct H as (_ & _ & _ & [[_ (rectified & H)]|[H _]]); discriminate.
Defined.

(** X6.  On a constructed instance the region mask raises exactly when the
    instance was constructed for the fisheye model, whatever the map: the
    fisheye rectification returns no valid region, the pinhole one always
    returns one of four components. *)
Theorem roi_mask_raises_iff_fisheye (L : Libs) (left right : Calibration)
    (self : StereoProcessor) (disparity : matrix) :
  __init__ L left right = inr self ->
  ((exists e, apply_roi_to_disparity self disparity = inl e)
   <-> camera_model left = OpenCVFisheye)
  /\ (camera_model left = OpenCVFisheye ->
      apply_roi_to_disparity self disparity = inl (ValueError roi_msg)).
Proof.
  intros H. apply init_inr in H. destruct H as [_ H].
  apply init_stereo_params_instance in H.
  destruct H as (_ & _ & _ & _ & Hmodel & Hpin & Hfish & _).
  assert (Hraise : camera_model left = OpenCVFisheye ->
                   apply_roi_to_disparity self disparity = inl (ValueError roi_msg)).
  { intros Hm. unfold apply_roi_to_disparity. rewrite (Hfish Hm). reflexivity. }
  split; [|exact Hraise]. split.
  - intros (e & He). destruct Hmodel as [Hm|Hm]; [|exact Hm].
    destruct (Hpin Hm) as (x & y & w & h & Hroi).
    rewrite (apply_roi_to_disparity_masked _ _ _ _ _ _ Hroi) in He. discriminate.
  - intros Hm. eexists. apply Hraise. exact Hm.
Qed.

Lemma roi_mask_raises_iff_fisheye_witness :
  exists self,
    __init__ sample_libs sample_fisheye_left sample_fisheye_right = inr self
    /\ apply_roi_to_disparity self [[of_Z 1; of_Z 2]] = inl (ValueError roi_msg).
Proof.
  destruct (__init__ sample_libs sample_fisheye_left sample_fisheye_right)
    as [e|self] eqn:Hinit; [discriminate|].
  exists self. split; [reflexivity|].
  apply (roi_mask_raises_iff_fisheye sample_libs sample_fisheye_left
           sample_fisheye_right self [[of_Z 1; of_Z 2]] Hinit).
  reflexivity.
Defined.

(** ** Normalised maps *)

Lemma normalise_disparity_8b_scales_to_max_witness :
  let disparity := [[of_Z 1; PInf; of_Z 4]; [NaN; NInf; Fin (1 # 2)]] in
  (exists v, In v (concat disparity) /\ is_finite v = true)
  /\ normalise_disparity_8b sample_libs disparity = inr [[63; 0; 255]; [0; 0; 31]].
Proof.
  cbv zeta.
  assert (H : exists v, In v (concat [[of_Z 1; PInf; of_Z 4]; [NaN; NInf; Fin (1 # 2)]])
                        /\ is_finite v = true).
  { exists (of_Z 1). simpl. auto. }
  split; [exact H|].
  destruct (normalise_disparity_8b_scales_to_max sample_libs _ H) as (m & Hm & Hout & _).
  vm_compute in Hm. injection Hm as Hm. subst m.
  rewrite Hout. reflexivity.
Defined.

Lemma pixel_map2d {A B : Type} (f : A -> B) (a : list (list A)) (r c : nat) :
  pixel (map2d f a) r c = option_map f (pixel a r c).
Proof.
  unfold pixel, map2d. rewrite nth_error_map.
  destruct (nth_error a r) as [row|]; simpl; [|reflexivity].
  apply nth_error_map.
Qed.

Lemma shape_map2d {A B : Type} (f : A -> B) (a : list (list A)) :
  map (@length B) (map2d f a) = map (@length A) a.
Proof.
  unfold map2d. rewrite map_map. apply map_ext. intros row. apply length_map.
Qed.

Lemma pixel_In {A : Type} (a : list (list A)) (r c : nat) (v : A) :
  pixel a r c = Some v -> In v (concat a).
Proof.
  unfold pixel. destruct (nth_error a r) as [row|] eqn:Hrow; [|discriminate].
  intros Hc. apply in_concat. exists row.
  split; eapply nth_error_In; eassumption.
Qed.

(** The divisor is a positive finite number in every case: the selection
    holds no NaN and no [+inf], and a maximum that is <= 0 (a [-inf]
    included) is replaced by 1. *)
Lemma divisor_positive (disparity : matrix) (old_max : scalar) :
  array_max (filter kept (concat disparity)) = inr old_max ->
  exists m : Q,
    (if (old_max <=? zero)%sc then one else old_max) = Fin m /\ (0 < m)%Q.
Proof.
  intros Hmax.
  assert (Hne : filter kept (concat disparity) <> []).
  { intro E. rewrite E in Hmax. discriminate. }
  destruct (array_max_spec _ Hne) as (m & Hm & _ & Hin & _).
  { apply Forall_forall. intros v Hv. apply filter_In in Hv.
    destruct Hv as [_ Hk]. apply kept_spec in Hk. destruct v; simpl; tauto. }
  rewrite Hmax in Hm. injection Hm as <-.
  apply filter_In in Hin. destruct Hin as [_ Hk]. apply kept_spec in Hk.
  destruct old_max as [| | |q]; try tauto.
  - exists 1%Q. split; reflexivity.
  - destruct (Fin q <=? zero)%sc eqn:E.
    + exists 1%Q. split; reflexivity.
    + exists q. split; [reflexivity|]. apply sleb_Fin_false in E. exact E.
Qed.

(** What both normalisations do to a pixel that is 0, for a target type of
    [bits] bits. *)
Lemma zero_is_scaled_to_zero (L : Libs) (bits n : Z) (q m : Q) :
  (0 < m)%Q -> (q == 0)%Q -> 0 <= n < 2 ^ bits ->
  astype_uint L bits (Fin q / Fin m * of_Z n)%sc = 0.
Proof.
  intros Hm Hq Hn.
  destruct (scale_in_range L bits n q m Hm) as [-> _]; try assumption.
  - rewrite Hq. apply Qle_refl.
  - rewrite Hq. apply Qlt_le_weak. exact Hm.
  - change 0 with (Qfloor (inject_Z 0)). apply Qfloor_comp.
    rewrite Hq. unfold Qdiv. rewrite !Qmult_0_l. reflexivity.
Qed.

(** X8.  Whenever a normalisation returns, the result has the shape of the
    input and every pixel that is 0 in the input is 0 in the result: the
    divisor is never 0, so the mark of a pixel without a match survives.
    This holds for the 16-bit and for the 8-bit normalisation. *)
Theorem normalise_disparity_keeps_zero (L : Libs) (disparity : matrix) :
  (forall out,
     normalise_disparity_16b L disparity = inr out ->
     map (@length Z) out = map (@length scalar) disparity
     /\ forall r c v, pixel disparity r c = Some v -> (v ==? zero)%sc = true ->
                      pixel out r c = Some 0)
  /\ (forall out,
        normalise_disparity_8b L disparity = inr out ->
        map (@length Z) out = map (@length scalar) disparity
        /\ forall r c v, pixel disparity r c = Some v -> (v ==? zero)%sc = true ->
                         pixel out r c = Some 0).
Proof.
  rewrite normalise_disparity_16b_unfold, normalise_disparity_8b_unfold.
  destruct (array_max (filter kept (concat disparity))) as [e|old_max] eqn:Hmax;
    cbn [bind]; [split; intros out H; discriminate|].
  destruct (divisor_positive disparity old_max Hmax) as (m & -> & Hm).
  split; intros out H; injection H as <-; (split; [apply shape_map2d|]);
    intros r c v Hv Hz; rewrite pixel_map2d, Hv; simpl; f_equal;
    apply seqb_zero in Hz; destruct Hz as (q & -> & Hq);
    apply zero_is_scaled_to_zero; auto; unfold uint16_max, uint8_max; lia.
Qed.

Lemma normalise_disparity_keeps_zero_witness :
  let disparity := [[zero; of_Z 3]; [of_Z (-2); zero]] in
  normalise_disparity_16b sample_libs disparity = inr [[0; 65535]; [0; 0]]
  /\ pixel [[0; 65535]; [0; 0]] 0 0 = Some 0.
Proof.
  cbv zeta. split; [reflexivity|].
  destruct (normalise_disparity_keeps_zero sample_libs
              [[zero; of_Z 3]; [of_Z (-2); zero]]) as [H16 _].
  destruct (H16 [[0; 65535]; [0; 0]] eq_refl) as [_ Hpix].
  apply (Hpix 0%nat 0%nat zero); reflexivity.
Defined.

Lemma normalise_disparity_returns (L : Libs) (disparity : matrix) :
  (exists v, In v (concat disparity) /\ v <> PInf /\ v <> NaN) ->
  (exists out, normalise_disparity_16b L disparity = inr out)
  /\ (exists out, normalise_disparity_8b L disparity = inr out).
Proof.
  intros (v & Hv & Hk).
  rewrite normalise_disparity_16b_unfold, normalise_disparity_8b_unfold.
  destruct (array_max_inr (filter kept (concat disparity))) as (m & ->).
  - intro Hnil. assert (Hin : In v (filter kept (concat disparity))).
    { apply filter_In. split; [exact Hv | apply kept_spec; exact Hk]. }
    rewrite Hnil in Hin. exact Hin.
  - cbn [bind]. split; eexists; reflexivity.
Qed.

Lemma scaling_monotone (L : Libs) (bits n : Z) (disparity : matrix)
    (out : list (list Z)) :
  0 <= n < 2 ^ bits ->
  (old_max <- array_max (filter kept (concat disparity)) ;;
   ret (map2d (fun v =>
                 astype_uint L bits
                   (v / (if (old_max <=? zero)%sc then one else old_max) * of_Z n)%sc)
              disparity)) = inr out ->
  forall r c r' c' q q',
    pixel disparity r c = Some (Fin q) ->
    pixel disparity r' c' = Some (Fin q') ->
    (0 <= q)%Q -> (q <= q')%Q ->
    exists z z',
      pixel out r c = Some z /\ pixel out r' c' = Some z'
      /\ 0 <= z /\ z <= z' /\ z' <= n.
Proof.
  intros Hn Hout r c r' c' q q' Hp Hp' Hq Hqq'.
  destruct (normalise_scales_to_max L bits n disparity Hn)
    as (m & _ & _ & Hub & Heq & _ & Hrange).
  { exists (Fin q). split; [eapply pixel_In; exact Hp | reflexivity]. }
  cbv zeta in Heq, Hrange. rewrite Heq in Hout. injection Hout as <-.
  set (old_max := if Qle_bool m 0 then 1%Q else m) in *.
  assert (Hpos : (0 < old_max)%Q).
  { unfold old_max. destruct (Qle_bool m 0) eqn:E; [reflexivity|].
    apply sleb_Fin_false. exact E. }
  assert (Hle : forall x, In (Fin x) (concat disparity) -> (0 <= x)%Q ->
                          (x <= old_max)%Q).
  { intros x Hx Hx0. specialize (Hub x Hx). unfold old_max.
    destruct (Qle_bool m 0) eqn:E; [|exact Hub].
    apply Qle_bool_iff in E. lra. }
  assert (Hq' : (0 <= q')%Q) by lra.
  destruct (Hrange q Hq (Hle q (pixel_In _ _ _ _ Hp) Hq)) as [E1 [Hlo _]].
  destruct (Hrange q' Hq' (Hle q' (pixel_In _ _ _ _ Hp') Hq')) as [E2 [_ Hhi]].
  exists (Qfloor (q / old_max * inject_Z n)), (Qfloor (q' / old_max * inject_Z n)).
  rewrite !pixel_map2d, Hp, Hp'. cbn [option_map]. cbv beta. rewrite E1, E2.
  repeat split; auto.
  apply Qfloor_resp_le. apply Qmult_le_compat_r.
  - unfold Qdiv. apply Qmult_le_compat_r; [exact Hqq'|].
    apply Qinv_le_0_compat. apply Qlt_le_weak. exact Hpos.
  - unfold Qle. simpl. lia.
Qed.

(** X9.  Normalisation keeps the order of the pixels it is meant for: of two
    finite pixels that are not negative, the smaller one gets the smaller (or
    the same) value, and both values lie within the target range, 0 to 65535
    for 16 bits and 0 to 255 for 8 bits. *)
Theorem normalise_disparity_monotone (L : Libs) (disparity : matrix)
    (r c r' c' : nat) (q q' : Q) :
  pixel disparity r c = Some (Fin q) ->
  pixel disparity r' c' = Some (Fin q') ->
  (0 <= q)%Q -> (q <= q')%Q ->
  (exists out z z',
     normalise_disparity_16b L disparity = inr out
     /\ pixel out r c = Some z /\ pixel out r' c' = Some z'
     /\ 0 <= z /\ z <= z' /\ z' <= 65535)
  /\ (exists out z z',
        normalise_disparity_8b L disparity = inr out
        /\ pixel out r c = Some z /\ pixel out r' c' = Some z'
        /\ 0 <= z /\ z <= z' /\ z' <= 255).
Proof.
  intros Hp Hp' Hq Hqq'.
  assert (Hkept : exists v, In v (concat disparity) /\ v <> PInf /\ v <> NaN).
  { exists (Fin q). split; [eapply pixel_In; exact Hp|]. split; discriminate. }
  destruct (normalise_disparity_returns L disparity Hkept)
    as [(out16 & H16) (out8 & H8)].
  split.
  - rewrite normalise_disparity_16b_unfold in H16.
    destruct (scaling_monotone L 16 uint16_max disparity out16) with
      (r := r) (c := c) (r' := r') (c' := c') (q := q) (q' := q')
      as (z & z' & H); auto; [unfold uint16_max; lia|].
    exists out16, z, z'. rewrite normalise_disparity_16b_unfold. tauto.
  - rewrite normalise_disparity_8b_unfold in H8.
    destruct (scaling_monotone L 8 uint8_max disparity out8) with
      (r := r) (c := c) (r' := r') (c' := c') (q := q) (q' := q')
      as (z & z' & H); auto; [unfold uint8_max; lia|].
    exists out8, z, z'. rewrite normalise_disparity_8b_unfold. tauto.
Qed.

Lemma normalise_disparity_monotone_witness :
  let disparity := [[of_Z 1; PInf; of_Z 4]] in
  exists out z z',
    normalise_disparity_16b sample_libs disparity = inr out
    /\ pixel out 0 0 = Some z /\ pixel out 0 2 = Some z'
    /\ 0 <= z /\ z <= z' /\ z' <= 65535.
Proof.
  cbv zeta.
  apply (normalise_disparity_monotone sample_libs [[of_Z 1; PInf; of_Z 4]]
           0 0 0 2 1 4); try reflexivity; unfold Qle; simpl; lia.
Defined.

(** ** Shifted maps *)

(** X10.  [shift_disp_down] raises exactly on a map without pixels (NumPy's
    [ValueError] for the maximum of an empty array): the minimum over the
    non-zero pixels is only taken when the maximum is not <= 0, and then a
    non-zero pixel exists.  Whenever it returns, the result has the shape of
    the input. *)
Theorem shift_disp_down_raises_iff_empty (disparity : matrix) :
  (concat disparity = [] <-> shift_disp_down disparity = inl (ValueError zero_size_max))
  /\ (concat disparity <> [] <-> exists shifted, shift_disp_down disparity = inr shifted)
  /\ forall shifted,
       shift_disp_down disparity = inr shifted ->
       map (@length scalar) shifted = map (@length scalar) disparity.
Proof.
  destruct (array_max (concat disparity)) as [e|mx] eqn:Hmx.
  - apply array_max_inl in Hmx. destruct Hmx as [Hnil ->].
    assert (Hraise : shift_disp_down disparity = inl (ValueError zero_size_max)).
    { rewrite shift_disp_down_unfold, Hnil. reflexivity. }
    rewrite Hraise. split; [tauto|]. split.
    + split; [congruence | intros (shifted & H); discriminate].
    + intros shifted H. discriminate.
  - assert (Hne : concat disparity <> []).
    { intro E. rewrite E in Hmx. discriminate. }
    assert (Hret : exists shifted,
               shift_disp_down disparity = inr shifted
               /\ map (@length scalar) shifted = map (@length scalar) disparity).
    { destruct (mx <=? zero)%sc eqn:Hle.
      - exists disparity. split; [|reflexivity].
        apply (shift_disp_down_noop _ _ Hmx Hle).
      - destruct (shift_disp_down_shifts _ _ Hmx Hle) as (z & _ & Heq & _).
        eexists. split; [exact Heq | apply shape_map2d]. }
    destruct Hret as (shifted & Heq & Hshape). rewrite Heq. split; [|split].
    + split; [congruence | discriminate].
    + split; [eauto | intros _; exact Hne].
    + intros s H. injection H as <-. exact Hshape.
Qed.

Lemma nonneg_pixel (disparity : matrix) (v : scalar) :
  (forall v, In v (concat disparity) -> (zero <=? v)%sc = true /\ is_finite v = true) ->
  In v (concat disparity) -> exists q, v = Fin q /\ (0 <= q)%Q.
Proof.
  intros H Hv. destruct (H v Hv) as [Hge Hfin].
  destruct v as [| | |q]; try discriminate. exists q. split; [reflexivity|].
  apply sleb_Fin in Hge. exact Hge.
Qed.

(** X11.  On a map of finite pixels none of which is negative,
    [shift_disp_down] never raises a pixel and never makes one negative:
    every pixel of the result lies between 0 and the pixel of the input, so a
    pixel that is 0 stays 0. *)
Theorem shift_disp_down_lowers (disparity shifted : matrix) :
  (forall v, In v (concat disparity) -> (zero <=? v)%sc = true /\ is_finite v = true) ->
  shift_disp_down disparity = inr shifted ->
  forall r c q,
    pixel disparity r c = Some (Fin q) ->
    exists q', pixel shifted r c = Some (Fin q') /\ (0 <= q')%Q /\ (q' <= q)%Q.
Proof.
  intros Hnonneg Hs r c q Hp.
  assert (Hq : (0 <= q)%Q).
  { destruct (nonneg_pixel disparity (Fin q) Hnonneg (pixel_In _ _ _ _ Hp))
      as (q0 & E & Hq0). injection E as ->. exact Hq0. }
  destruct (array_max (concat disparity)) as [e|mx] eqn:Hmx.
  { rewrite shift_disp_down_unfold, Hmx in Hs. discriminate. }
  destruct (mx <=? zero)%sc eqn:Hle.
  - rewrite (shift_disp_down_noop _ _ Hmx Hle) in Hs. injection Hs as <-.
    exists q. split; [exact Hp|]. split; [exact Hq | apply Qle_refl].
  - destruct (shift_disp_down_shifts _ _ Hmx Hle) as (z & _ & Heq & Hz).
    destruct Hz as (Hin & Hnz & _).
    { intros v Hv. destruct (Hnonneg v Hv) as [_ Hf]. destruct v; simpl in *; congruence. }
    rewrite Heq in Hs. injection Hs as <-.
    destruct (nonneg_pixel disparity z Hnonneg Hin) as (zq & -> & Hzq).
    rewrite pixel_map2d, Hp. cbn [option_map]. cbv zeta.
    assert (Hsub : (Fin q - (Fin zq + one))%sc = Fin (Qred (q - Qred (zq + 1)))).
    { reflexivity. }
    rewrite Hsub.
    destruct (Fin (Qred (q - Qred (zq + 1))) <? zero)%sc eqn:Hneg.
    + exists 0%Q. split; [reflexivity|]. split; [apply Qle_refl | exact Hq].
    + exists (Qred (q - Qred (zq + 1))). split; [reflexivity|].
      simpl in Hneg. apply negb_false_iff, Qle_bool_iff in Hneg.
      change (inject_Z 0) with 0%Q in Hneg. split; [exact Hneg|].
      rewrite !Qred_correct. lra.
Qed.

Lemma shift_disp_down_lowers_witness :
  let disparity := [[zero; of_Z 3]; [of_Z 7; of_Z 4]] in
  shift_disp_down disparity = inr [[zero; zero]; [of_Z 3; zero]]
  /\ exists q', pixel [[zero; zero]; [of_Z 3; zero]] 1 0 = Some (Fin q')
                /\ (0 <= q')%Q /\ (q' <= 7)%Q.
Proof.
  cbv zeta. split; [reflexivity|].
  apply (shift_disp_down_lowers [[zero; of_Z 3]; [of_Z 7; of_Z 4]]
           [[zero; zero]; [of_Z 3; zero]]); try reflexivity.
  intros v Hv. simpl in Hv.
  repeat (destruct Hv as [<-|Hv]; [split; reflexivity|]). destruct Hv.
Defined.

(** ** Depth *)

Lemma Qsign_spec (q : Q) :
  match Qsign q with
  | Eq => (q == 0)%Q
  | Lt => (q < 0)%Q
  | Gt => (0 < q)%Q
  end.
Proof.
  unfold Qsign, Qeq, Qlt. simpl. rewrite !Z.mul_1_r.
  destruct (Z.compare_spec (Qnum q) 0); assumption.
Qed.

Lemma Qsign_Eq (q : Q) : (q == 0)%Q -> Qsign q = Eq.
Proof.
  intros H. pose proof (Qsign_spec q) as S.
  destruct (Qsign q); [reflexivity | rewrite H in S | rewrite H in S];
    exfalso; exact (Qlt_irrefl _ S).
Qed.

Lemma Qsign_Lt (q : Q) : (q < 0)%Q -> Qsign q = Lt.
Proof.
  intros H. pose proof (Qsign_spec q) as S.
  destruct (Qsign q); [rewrite S in H; exfalso; exact (Qlt_irrefl _ H) | reflexivity |].
  exfalso. exact (Qlt_irrefl _ (Qlt_trans _ _ _ S H)).
Qed.

(** The depth of a finite disparity, once the product of the baseline and
    the focal length is a finite number. *)
Lemma depth_of_finite (L : Libs) (self : StereoProcessor) (p q : Q) :
  (baseline_mm L self * focallength_px (calibration_left self))%sc = Fin p ->
  disparity_to_depth_mm L self (Fin q) = (Fin p / Fin (Qred (q + 0)))%sc.
Proof.
  unfold disparity_to_depth_mm, baseline_mm. intros ->. reflexivity.
Qed.

Lemma depth_of_nonzero (L : Libs) (self : StereoProcessor) (p q : Q) :
  (baseline_mm L self * focallength_px (calibration_left self))%sc = Fin p ->
  ~ (q == 0)%Q ->
  exists z, disparity_to_depth_mm L self (Fin q) = Fin z /\ (z == p / q)%Q.
Proof.
  intros Hp Hq. rewrite (depth_of_finite L self p q Hp).
  assert (Hd : (Qred (q + 0) == q)%Q) by (rewrite Qred_correct; ring).
  unfold sdiv. pose proof (Qsign_spec (Qred (q + 0))) as S.
  destruct (Qsign (Qred (q + 0))).
  - rewrite Hd in S. contradiction.
  - eexists. split; [reflexivity|]. rewrite Qred_correct, Hd. reflexivity.
  - eexists. split; [reflexivity|]. rewrite Qred_correct, Hd. reflexivity.
Qed.

(** X12.  When the product of the baseline and the focal length is a finite
    positive number, [disparity_to_depth_mm] raises nothing at the
    degenerate disparities: a disparity of 0 gives [+inf], an infinite
    disparity gives 0, and NaN gives NaN.  A positive disparity never gives
    a negative depth, a negative disparity never a positive one, and a
    larger positive disparity never gives a larger depth. *)
Theorem disparity_to_depth_mm_edges (L : Libs) (self : StereoProcessor) (p : Q) :
  (baseline_mm L self * focallength_px (calibration_left self))%sc = Fin p ->
  (0 < p)%Q ->
  (forall q, (q == 0)%Q -> disparity_to_depth_mm L self (Fin q) = PInf)
  /\ disparity_to_depth_mm L self PInf = zero
  /\ disparity_to_depth_mm L self NInf = zero
  /\ disparity_to_depth_mm L self NaN = NaN
  /\ (forall q, (0 < q)%Q ->
        (zero <=? disparity_to_depth_mm L self (Fin q))%sc = true)
  /\ (forall q, (q < 0)%Q ->
        (disparity_to_depth_mm L self (Fin q) <=? zero)%sc = true)
  /\ (forall q q', (0 < q)%Q -> (q <= q')%Q ->
        (disparity_to_depth_mm L self (Fin q') <=? disparity_to_depth_mm L self (Fin q))%sc
        = true).
Proof.
  intros Hp Hpos.
  assert (Hdepth : forall q, (0 < q)%Q ->
            exists z, disparity_to_depth_mm L self (Fin q) = Fin z
                      /\ (z == p / q)%Q /\ (0 < z)%Q).
  { intros q Hq.
    destruct (depth_of_nonzero L self p q Hp) as (z & Hz & Hzq).
    - intro E. rewrite E in Hq. exact (Qlt_irrefl _ Hq).
    - exists z. split; [exact Hz|]. split; [exact Hzq|].
      rewrite Hzq. apply Qlt_shift_div_l; [exact Hq|]. rewrite Qmult_0_l. exact Hpos. }
  assert (Hspecial : forall d, is_finite d = false ->
            disparity_to_depth_mm L self d = (Fin p / d)%sc).
  { intros d Hd. unfold disparity_to_depth_mm. fold (baseline_mm L self).
    rewrite Hp. destruct d; [reflexivity..|discriminate]. }
  split; [|split; [|split; [|split; [|split; [|split]]]]].
  - intros q Hq. rewrite (depth_of_finite L self p q Hp).
    unfold sdiv. rewrite (Qsign_Eq (Qred (q + 0))) by (rewrite Qred_correct, Hq; ring).
    rewrite (Qsign_Gt p Hpos). reflexivity.
  - rewrite Hspecial; reflexivity.
  - rewrite Hspecial; reflexivity.
  - rewrite Hspecial; reflexivity.
  - intros q Hq. destruct (Hdepth q Hq) as (z & -> & _ & Hz).
    apply sleb_Fin. change (inject_Z 0) with 0%Q. apply Qlt_le_weak. exact Hz.
  - intros q Hq.
    destruct (depth_of_nonzero L self p q Hp) as (z & -> & Hzq).
    + intro E. rewrite E in Hq. exact (Qlt_irrefl _ Hq).
    + apply sleb_Fin. change (inject_Z 0) with 0%Q. rewrite Hzq. unfold Qdiv.
      assert (Hinv : (0 < / - q)%Q) by (apply Qinv_lt_0_compat; lra).
      assert (Hprod : (0 < p * / - q)%Q) by (apply Qmult_lt_0_compat; assumption).
      assert (E : (p * / q == - (p * / - q))%Q).
      { field. intro E0. rewrite E0 in Hq. exact (Qlt_irrefl _ Hq). }
      rewrite E. lra.
  - intros q q' Hq Hqq'.
    assert (Hq' : (0 < q')%Q) by lra.
    destruct (Hdepth q Hq) as (z & -> & Hz & _).
    destruct (Hdepth q' Hq') as (z' & -> & Hz' & _).
    apply sleb_Fin. rewrite Hz, Hz'.
    apply Qle_shift_div_l; [exact Hq|].
    assert (E : (p / q' * q == p * (q / q'))%Q).
    { field. intro E0. rewrite E0 in Hq'. exact (Qlt_irrefl _ Hq'). }
    rewrite E. rewrite <- (Qmult_1_r p) at 2.
    apply Qmult_le_l; [exact Hpos|].
    apply Qle_shift_div_r; [exact Hq'|]. rewrite Qmult_1_l. exact Hqq'.
Qed.

(** The theorem at the sample rig: a baseline of 100 mm and a focal length
    of 1000 px. *)
Lemma disparity_to_depth_mm_edges_witness :
  let self := sample_processor None in
  (baseline_mm sample_libs self * focallength_px (calibration_left self))%sc
  = Fin 100000
  /\ disparity_to_depth_mm sample_libs self zero = PInf
  /\ disparity_to_depth_mm sample_libs self PInf = zero
  /\ (disparity_to_depth_mm sample_libs self (of_Z 50)
      <=? disparity_to_depth_mm sample_libs self (of_Z 25))%sc = true.
Proof.
  cbv zeta.
  destruct (disparity_to_depth_mm_edges sample_libs (sample_processor None) 100000)
    as (Hzero & Hinf & _ & _ & _ & _ & Hmono); try reflexivity.
  split; [reflexivity|]. split; [|split].
  - apply Hzero. reflexivity.
  - exact Hinf.
  - apply (Hmono 25%Q 50%Q); [reflexivity | unfold Qle; simpl; lia].
Defined.

(** ** 3-D points *)

Lemma np_array_tuple3 (p : scalar * scalar * scalar) :
  np_array (py_tuple3 p) = Some (mk_ndarray [3%nat] (point_row p)).
Proof. destruct p as [[u v] d]. reflexivity. Qed.

Lemma stack_data_tuples (pts : list (scalar * scalar * scalar)) :
  stack_data [3%nat] (map np_array (map py_tuple3 pts))
  = Some (concat (map point_row pts)).
Proof.
  induction pts as [|p pts IH]; [reflexivity|].
  cbn [map stack_data]. rewrite np_array_tuple3. cbn [shape data].
  destruct (list_eq_dec Nat.eq_dec [3%nat] [3%nat]) as [_|Hne]; [|congruence].
  rewrite IH. reflexivity.
Qed.

(** [np.array] of a list of [n >= 1] tuples of three numbers has shape
    [(n, 3)]. *)
Lemma np_array_tuples (pts : list (scalar * scalar * scalar)) :
  pts <> [] ->
  np_array (Seq (map py_tuple3 pts))
  = Some (mk_ndarray [length pts; 3%nat] (concat (map point_row pts))).
Proof.
  destruct pts as [|p pts]; [congruence|]. intros _.
  cbn [np_array]. pose proof (stack_data_tuples (p :: pts)) as H.
  cbn [map] in *. rewrite np_array_tuple3 in *. cbn [stack shape].
  rewrite H. cbn [option_map length]. rewrite !length_map. reflexivity.
Qed.

Lemma length_concat_point_rows (pts : list (scalar * scalar * scalar)) :
  length (concat (map point_row pts)) = (3 * length pts)%nat.
Proof.
  induction pts as [|[[u v] d] pts IH]; [reflexivity|].
  cbn [map concat point_row app length]. rewrite IH. lia.
Qed.

Lemma rows3_point_rows (pts : list (scalar * scalar * scalar)) :
  rows3 (concat (map point_row pts)) = map point_row pts.
Proof.
  induction pts as [|[[u v] d] pts IH]; [reflexivity|].
  cbn [map concat point_row app rows3]. rewrite IH. reflexivity.
Qed.

Lemma rows3_map_point_rows (g : scalar -> scalar)
    (pts : list (scalar * scalar * scalar)) :
  rows3 (map g (concat (map point_row pts)))
  = map (fun p => map g (point_row p)) pts.
Proof.
  induction pts as [|[[u v] d] pts IH]; [reflexivity|].
  cbn [map concat point_row app rows3]. rewrite IH. reflexivity.
Qed.

Lemma concat_map_cast {A : Type} (g : scalar -> scalar) (f : A -> list scalar)
    (l : list A) :
  map g (concat (map f l)) = concat (map (fun x => map g (f x)) l).
Proof.
  induction l as [|x l IH]; [reflexivity|].
  cbn [map concat]. rewrite map_app, IH. reflexivity.
Qed.

(** X13.  For a list of [n >= 1] points, each a tuple [(u, v, d)], the result
    is an array of shape [(n, 3)] whose rows are, in the order of the list,
    [x = (u - cx) / fx * z], [y = (v - cy) / fy * z] and
    [z = disparity_to_depth_mm(d)], with the intrinsics of the left camera.
    The casts are where the code has them: [u], [v] and [d] are cast to
    [np.float32] by [_marshal_point_to_array] and again after [reshape], and
    [x], [y] and [z] are cast when the result is built. *)
Theorem points_px_to_3d_world_space_of_tuples (L : Libs) (self : StereoProcessor)
    (pts : list (scalar * scalar * scalar)) :
  pts <> [] ->
  points_px_to_3d_world_space L self (PxList (map py_tuple3 pts))
  = inr (mk_ndarray [length pts; 3%nat]
           (concat (map (fun p =>
                           let '(u, v, d) := p in
                           let u := float32 L (float32 L u) in
                           let v := float32 L (float32 L v) in
                           let d := float32 L (float32 L d) in
                           let z := disparity_to_depth_mm L self d in
                           [float32 L ((u - cx (calibration_left self))
                                       / fx (calibration_left self) * z)%sc;
                            float32 L ((v - cy (calibration_left self))
                                       / fy (calibration_left self) * z)%sc;
                            float32 L z])
                        pts))).
Proof.
  intros Hne.
  rewrite (points_px_to_3d_world_space_rows L self _
             (astype_float32 L
                (mk_ndarray [length pts; 3%nat] (concat (map point_row pts))))).
  - unfold astype_float32. cbn [shape data].
    rewrite length_map, length_concat_point_rows, Nat.mul_comm, Nat.Div0.mod_mul.
    cbn [Nat.eqb]. rewrite map_map, rows3_map_point_rows, array_of_rows_nonempty.
    + cbn [shape data].
      rewrite !length_map, map_map, concat_map_cast.
      do 3 f_equal. apply map_ext. intros [[u v] d]. reflexivity.
    + destruct pts; [congruence | discriminate].
  - unfold _marshal_point_to_array. rewrite (np_array_tuples pts Hne). reflexivity.
Qed.

(** The theorem at a point whose [u] is not a value of [np.float32]:
    16777217 is cast to 16777216 before anything is computed from it. *)
Lemma points_px_to_3d_world_space_of_tuples_witness :
  points_px_to_3d_world_space sample_libs (sample_processor None)
    (PxList [Seq [Num (of_Z 16777217); Num (of_Z 240); Num (of_Z 50)];
             Seq [Num (of_Z 320); Num (of_Z 140); Num (of_Z 25)]])
  = inr (mk_ndarray [2%nat; 3%nat]
           [of_Z 33553792; zero; of_Z 2000; zero; of_Z (-400); of_Z 4000]).
Proof.
  refine (eq_trans
            (points_px_to_3d_world_space_of_tuples sample_libs (sample_processor None)
               [(of_Z 16777217, of_Z 240, of_Z 50); (of_Z 320, of_Z 140, of_Z 25)] _) _).
  - discriminate.
  - vm_compute. reflexivity.
Defined.

(** The theorem at an array of shape (2, 1, 3) whose first element is not a
    value of [np.float32]. *)
Lemma points_px_to_3d_world_space_shape_witness :
  let a := mk_ndarray [2%nat; 1%nat; 3%nat]
             [of_Z 16777217; of_Z 240; of_Z 50; of_Z 320; of_Z 140; of_Z 25] in
  exists out,
    points_px_to_3d_world_space sample_libs (sample_processor None) (PxArray a)
    = inr out
    /\ shape out = [2%nat; 3%nat]
    /\ rows3 (data out)
       = [[of_Z 33553792; zero; of_Z 2000]; [zero; of_Z (-400); of_Z 4000]].
Proof.
  cbv zeta.
  destruct (points_px_to_3d_world_space_shape sample_libs (sample_processor None)
              (PxArray (mk_ndarray [2%nat; 1%nat; 3%nat]
                          [of_Z 16777217; of_Z 240; of_Z 50;
                           of_Z 320; of_Z 140; of_Z 25]))
              _ 2 eq_refl eq_refl) as (out & Hout & Hshape & Hrows); [lia|].
  exists out. split; [exact Hout|]. split; [exact Hshape|].
  rewrite Hrows. vm_compute. reflexivity.
Defined.

(** X15.  The only errors of [points_px_to_3d_world_space] are NumPy's.  For
    an array it raises exactly when the number of elements is not a multiple
    of 3 ([reshape] fails); for a list it raises exactly when the nesting is
    ragged ([np.array] fails) or the number of elements is not a multiple
    of 3. *)
Theorem points_px_to_3d_world_space_raises_iff (L : Libs) (self : StereoProcessor) :
  (forall a e,
     points_px_to_3d_world_space L self (PxArray a) = inl e
     <-> ((length (data a) mod 3)%nat <> 0%nat
          /\ e = ValueError (cannot_reshape (length (data a)))))
  /\ (forall items e,
        points_px_to_3d_world_space L self (PxList items) = inl e
        <-> ((np_array (Seq items) = None /\ e = ValueError inhomogeneous)
             \/ exists a, np_array (Seq items) = Some a
                          /\ (length (data a) mod 3)%nat <> 0%nat
                          /\ e = ValueError (cannot_reshape (length (data a))))).
Proof.
  assert (Harr : forall points a e,
            _marshal_point_to_array L points = inr a ->
            (points_px_to_3d_world_space L self points = inl e
             <-> ((length (data a) mod 3)%nat <> 0%nat
                  /\ e = ValueError (cannot_reshape (length (data a)))))).
  { intros points a e Hm.
    rewrite (points_px_to_3d_world_space_rows L self points a Hm).
    destruct (length (data a) mod 3 =? 0)%nat eqn:E.
    - apply Nat.eqb_eq in E. split; [discriminate | intros [H _]; contradiction].
    - apply Nat.eqb_neq in E. split.
      + intros H. injection H as <-. auto.
      + intros [_ ->]. reflexivity. }
  split.
  - intros a e. apply Harr. reflexivity.
  - intros items e. destruct (np_array (Seq items)) as [a|] eqn:Hnp.
    + rewrite (Harr (PxList items) (astype_float32 L a) e).
      * unfold astype_float32. cbn [data]. rewrite length_map. split.
        -- intros [H1 H2]. right. exists a. auto.
        -- intros [[H _]|(a' & Ha & H1 & H2)]; [discriminate|].
           injection Ha as <-. auto.
      * unfold _marshal_point_to_array. rewrite Hnp. reflexivity.
    + unfold points_px_to_3d_world_space, _marshal_point_to_array.
      rewrite Hnp. cbn [bind]. unfold raise. split.
      * intros H. injection H as <-. auto.
      * intros [[_ ->]|(a & Ha & _)]; [reflexivity | discriminate].
Qed.

Lemma points_px_to_3d_world_space_raises_iff_witness :
  points_px_to_3d_world_space sample_libs (sample_processor None)
    (PxArray (mk_ndarray [4%nat] [of_Z 1; of_Z 2; of_Z 3; of_Z 4]))
  = inl (ValueError "cannot reshape array of size 4 into shape (1,3)")
  /\ points_px_to_3d_world_space sample_libs (sample_processor None)
       (PxList [Seq [Num (of_Z 1); Num (of_Z 2); Num (of_Z 3)]; Seq [Num (of_Z 4)]])
     = inl (ValueError inhomogeneous).
Proof.
  destruct (points_px_to_3d_world_space_raises_iff sample_libs (sample_processor None))
    as [Harr Hlist].
  split.
  - apply Harr. split; [discriminate | reflexivity].
  - apply Hlist. left. split; reflexivity.
Defined.

(** ** The relative translation *)

Lemma finite_is_Fin (a : scalar) : is_finite a = true -> exists q, a = Fin q.
Proof. destruct a; try discriminate. eauto. Qed.

(** A finite row times the zero vector is zero. *)
Lemma dot_zero (a : vec3) :
  finite_vec3 a = true -> dot a (V3 zero zero zero) = zero.
Proof.
  unfold finite_vec3. rewrite !andb_true_iff. intros [[H0 H1] H2].
  destruct a as [a0 a1 a2]. simpl in *.
  repeat match goal with
         | H : is_finite ?v = true |- _ =>
             apply finite_is_Fin in H; destruct H as (? & ->)
         end.
  unfold dot, zero, of_Z. cbn [v0 v1 v2 smul sadd fin].
  apply (f_equal Fin). change (inject_Z 0) with (Qred 0).
  apply Qred_complete. rewrite !Qred_correct. ring.
Qed.

(** Subtracting zero from a sum changes nothing. *)
Lemma sum_minus_zero (a b : scalar) : ((a + b) - zero)%sc = (a + b)%sc.
Proof.
  destruct a, b; try reflexivity. unfold zero, of_Z. cbn [sadd ssub fin].
  apply (f_equal Fin). apply Qred_complete. rewrite !Qred_correct.
  change (inject_Z 0) with 0%Q. ring.
Qed.

Lemma dot_minus_zero (a t : vec3) : (dot a t - zero)%sc = dot a t.
Proof. unfold dot. apply sum_minus_zero. Qed.

(** A row of the identity picks a coordinate. *)
Lemma dot_unit (x y z : Q) :
  dot (V3 one zero zero) (V3 (Fin x) (Fin y) (Fin z)) = fin x
  /\ dot (V3 zero one zero) (V3 (Fin x) (Fin y) (Fin z)) = fin y
  /\ dot (V3 zero zero one) (V3 (Fin x) (Fin y) (Fin z)) = fin z.
Proof.
  unfold dot, one, zero, of_Z. cbn [v0 v1 v2 smul sadd fin].
  change (inject_Z 0) with 0%Q. change (inject_Z 1) with 1%Q.
  repeat split; apply (f_equal Fin); apply Qred_complete; rewrite !Qred_correct; ring.
Qed.

(** X17.  When the left camera is the origin of the rig ([tvec] zero) and its
    rotation matrix holds finite numbers, the translation derived at
    construction is the translation of the right camera turned into the
    frame of the left one, [T = R_left^T . tvec_right]: the product with the
    zero vector is zero, and subtracting it changes nothing.  When the left
    camera is not rotated either, [T] is the [tvec] of the right camera
    (its finite numbers, in lowest terms). *)
Theorem relative_translation_from_reference (L : Libs) (left right : Calibration)
    (self : StereoProcessor) :
  __init__ L left right = inr self ->
  finite_mat33 (fst (Rodrigues L (rvec left))) = true ->
  tvec left = V3 zero zero zero ->
  T self = matvec (transpose (fst (Rodrigues L (rvec left)))) (tvec right)
  /\ (fst (Rodrigues L (rvec left)) = identity33 ->
      forall x y z, tvec right = V3 (Fin x) (Fin y) (Fin z) ->
                    T self = V3 (fin x) (fin y) (fin z)).
Proof.
  intros Hinit HR Hl.
  apply init_inr in Hinit. destruct Hinit as [_ Hinit].
  apply init_stereo_params_attributes in Hinit. destruct Hinit as (_ & _ & HT).
  set (Rl := fst (Rodrigues L (rvec left))) in *.
  assert (Hrows : finite_vec3 (row0 (transpose Rl)) = true
                  /\ finite_vec3 (row1 (transpose Rl)) = true
                  /\ finite_vec3 (row2 (transpose Rl)) = true).
  { clearbody Rl. destruct Rl as [[a b c] [d e f] [g h i]].
    unfold finite_mat33, finite_vec3 in HR. simpl in HR.
    rewrite !andb_true_iff in HR. unfold finite_vec3. simpl.
    rewrite !andb_true_iff. tauto. }
  destruct Hrows as (H0 & H1 & H2).
  assert (Hprod : T self = matvec (transpose Rl) (tvec right)).
  { rewrite HT, Hl. unfold matvec, vsub. cbn [v0 v1 v2].
    rewrite !dot_zero by assumption. rewrite !dot_minus_zero. reflexivity. }
  split; [exact Hprod|].
  intros Hid x y z Hr. rewrite Hprod, Hid, Hr.
  destruct (dot_unit x y z) as (Ex & Ey & Ez).
  unfold matvec, transpose, identity33, col0, col1, col2. cbn [row0 row1 row2 v0 v1 v2].
  rewrite Ex, Ey, Ez. reflexivity.
Qed.

(** The theorem at a left camera at the origin, turned by a quarter about z:
    the translation (110, 20, 30) of the right camera is (20, -110, 30) in
    the frame of the left one. *)
Lemma relative_translation_from_reference_witness :
  let left := with_pose sample_left (V3 zero zero quarter_angle) (V3 zero zero zero) in
  exists self,
    __init__ sample_libs left turned_right = inr self
    /\ T self = V3 (of_Z 20) (of_Z (-110)) (of_Z 30).
Proof.
  cbv zeta.
  destruct (__init__ sample_libs
              (with_pose sample_left (V3 zero zero quarter_angle) (V3 zero zero zero))
              turned_right) as [e|self] eqn:Hinit;
    [discriminate|].
  exists self. split; [reflexivity|].
  refine (eq_trans
            (proj1 (relative_translation_from_reference sample_libs _ turned_right
                      self Hinit eq_refl eq_refl)) _).
  reflexivity.
Defined.

(** ** Pixels the helpers do not protect *)

Lemma special_is_scaled_to_itself (v : scalar) (m : Q) (n : Z) :
  is_finite v = false -> (0 < m)%Q -> 0 < n ->
  (v / Fin m * of_Z n)%sc = v.
Proof.
  intros Hv Hm Hn. destruct v as [| | |q]; try discriminate.
  - reflexivity.
  - simpl. rewrite (Qsign_Gt m Hm). simpl. unfold inf_times.
    rewrite Qsign_Gt; [reflexivity | unfold Qlt; simpl; lia].
  - simpl. rewrite (Qsign_Gt m Hm). simpl. unfold inf_times.
    rewrite Qsign_Gt; [reflexivity | unfold Qlt; simpl; lia].
Qed.

(** X18.  The normalisations leave the invalid pixels out of the maximum
    only: in the result, a pixel that was [+inf], [-inf] or NaN is the
    integer cast of that same special value, which NumPy leaves to the
    platform.  No invalid pixel is set to 0 or to any chosen value. *)
Theorem normalise_disparity_casts_invalid_pixels (L : Libs) (disparity : matrix)
    (r c : nat) (v : scalar) :
  pixel disparity r c = Some v ->
  is_finite v = false ->
  (forall out, normalise_disparity_16b L disparity = inr out ->
               pixel out r c = Some (cast_out_of_range L 16 v))
  /\ (forall out, normalise_disparity_8b L disparity = inr out ->
                  pixel out r c = Some (cast_out_of_range L 8 v)).
Proof.
  intros Hp Hv.
  rewrite normalise_disparity_16b_unfold, normalise_disparity_8b_unfold.
  destruct (array_max (filter kept (concat disparity))) as [e|old_max] eqn:Hmax;
    cbn [bind]; [split; intros out H; discriminate|].
  destruct (divisor_positive disparity old_max Hmax) as (m & -> & Hm).
  split; intros out H; injection H as <-; rewrite pixel_map2d, Hp; cbn [option_map];
    rewrite special_is_scaled_to_itself; auto;
    try (unfold uint16_max, uint8_max; lia);
    destruct v; try discriminate; reflexivity.
Qed.

Lemma normalise_disparity_casts_invalid_pixels_witness :
  let disparity := [[of_Z 1; PInf; of_Z 4]] in
  exists out,
    normalise_disparity_16b sample_libs disparity = inr out
    /\ pixel out 0 1 = Some (cast_out_of_range sample_libs 16 PInf).
Proof.
  cbv zeta. eexists. split; [vm_compute; reflexivity|].
  apply (proj1 (normalise_disparity_casts_invalid_pixels sample_libs
                  [[of_Z 1; PInf; of_Z 4]] 0 1 PInf eq_refl eq_refl)).
  reflexivity.
Defined.


